(** * esbuild-obfuscator: the post-build transform hook

    A shallow embedding of [obfuscatorPlugin]
    (packages/esbuild-obfuscator/src/lib/esbuild-obfuscator.ts) and the
    properties of its [onEnd] callback.

    The callback is asynchronous: [outputFiles.map(async ...)] starts one task
    per manifest key and [Promise.all] joins them.  The embedding keeps that
    shape: the synchronous part of the callback builds a pool of tasks, and a
    step function lets a scheduler advance any task that is still in flight,
    so every interleaving of the tasks is a run.  A read and a write each act
    on the files in one step.  The collaborators that live outside the repository ([path.resolve] and
    javascript-obfuscator's [obfuscate]) are parameters of the development. *)

From stdpp Require Import gmap strings list fin_maps relations.

Set Default Proof Using "Type".

(** ** Strings: [String.prototype.endsWith] *)

Module Str.

(** [s.endsWith(searchString)] with the default end position: the search
    string has to fit ([start = len - searchLength >= 0]) and the code units
    from [start] on have to be the search string. *)
Definition endsWith (s searchString : string) : bool :=
  let len := String.length s in
  let searchLength := String.length searchString in
  if searchLength <=? len
  then String.eqb (String.substring (len - searchLength) searchLength s) searchString
  else false.

End Str.

(** ** Paths: a model of Node's POSIX [path.resolve] with one argument

    [path.resolve] belongs to Node, not to the repository, so the hook below
    takes it as a parameter.  This model (split at the slashes, drop empty
    and [.] segments, let [..] pop a segment, anchor relative paths at the
    working directory) instantiates the parameter in the examples. *)

Module Posix.

(** The separator, code 47. *)
Definition slash : Ascii.ascii := Ascii.ascii_of_nat 47.

Fixpoint split_go (cur s : string) : list string :=
  match s with
  | EmptyString => [String.rev cur]
  | String c s' =>
      if Ascii.eqb c slash then String.rev cur :: split_go EmptyString s'
      else split_go (String c cur) s'
  end.

Definition split (s : string) : list string := split_go EmptyString s.

Definition isAbsolute (p : string) : bool :=
  match p with
  | String c _ => Ascii.eqb c slash
  | EmptyString => false
  end.

(** The segments seen so far are kept innermost first. *)
Definition normalize_step (stack : list string) (seg : string) : list string :=
  if String.eqb seg EmptyString || String.eqb seg "." then stack
  else if String.eqb seg ".." then tail stack
  else seg :: stack.

Definition join (segs : list string) : string :=
  match segs with
  | [] => "/"
  | _ => foldr (λ seg acc, "/" +:+ seg +:+ acc) EmptyString segs
  end.

Definition resolve (cwd p : string) : string :=
  let segs := if isAbsolute p then split p else split cwd ++ split p in
  join (rev (foldl normalize_step [] segs)).

End Posix.

(** ** The filesystem and the errors of the collaborators *)

Inductive Exn : Type :=
  | ENOENT (path : string)      (* no such file *)
  | EACCES (path : string)      (* permission denied *)
  | Thrown (msg : string).      (* an exception of the transformation *)

Inductive result (A : Type) : Type :=
  | Ok (a : A)
  | Throw (e : Exn).
Arguments Ok {A} a.
Arguments Throw {A} e.

Record File : Type := { content : string; writable : bool }.

Module Fs.

(** [fs.readFile(filePath, 'utf8')]: the whole content, or [ENOENT]. *)
Definition readFile (files : gmap string File) (filePath : string) : result string :=
  match files !! filePath with
  | Some f => Ok (content f)
  | None => Throw (ENOENT filePath)
  end.

(** [fs.writeFile(filePath, data, 'utf8')]: replaces the whole content
    (creating the file when there is none), or [EACCES] on a file that
    may not be written. *)
Definition writeFile (files : gmap string File) (filePath data : string)
  : result (gmap string File) :=
  match files !! filePath with
  | Some f =>
      if writable f
      then Ok (<[filePath := {| content := data; writable := true |}]> files)
      else Throw (EACCES filePath)
  | None => Ok (<[filePath := {| content := data; writable := true |}]> files)
  end.

End Fs.

(** What outlives a hook invocation: the files and the error channel. *)
Record World : Type := { files : gmap string File; stderr : list string }.

(** ** The build outcome (esbuild's [BuildResult]) *)

Record Message : Type := { text : string }.
Record OutputMeta : Type := { bytes : N; entryPoint : option string }.
Record Metafile : Type := { outputs : list (string * OutputMeta) }.
Record BuildResult : Type := { errors : list Message; metafile : option Metafile }.

(** [Object.keys]: the own keys, in the object's order. *)
Definition Object_keys {A : Type} (o : list (string * A)) : list string := o.*1.

(** ** Promises and tasks *)

Inductive Promise : Type :=
  | Pending
  | Fulfilled
  | Rejected (reason : Exn).

(** One element of [outputFiles.map(async (outputFile) => ...)]: where the
    async function stands. *)
Inductive TaskState : Type :=
  | TReading (filePath : string)                 (* [await fs.readFile] in flight *)
  | TRead (filePath code : string)               (* content delivered, body not resumed yet *)
  | TWriting (filePath obfuscatedCode : string)  (* [await fs.writeFile] in flight *)
  | TDone                                        (* the task's promise is fulfilled *)
  | TFailed (reason : Exn).                      (* the task's promise is rejected *)

Definition is_done (t : TaskState) : bool :=
  match t with TDone => true | _ => false end.

Definition is_settled (t : TaskState) : bool :=
  match t with TDone | TFailed _ => true | _ => false end.

Global Instance Exn_eq_dec : EqDecision Exn.
Proof. solve_decision. Defined.
Global Instance File_eq_dec : EqDecision File.
Proof. solve_decision. Defined.
Global Instance TaskState_eq_dec : EqDecision TaskState.
Proof. solve_decision. Defined.
Global Instance Promise_eq_dec : EqDecision Promise.
Proof. solve_decision. Defined.

Section hook.

(** [ObfuscatorPluginOptions]: string keys, values of a type the hook
    knows nothing about. *)
Context {V : Type}.
Abbreviation Options := (gmap string V).

(** [path.resolve] and javascript-obfuscator's
    [obfuscate(code, options).getObfuscatedCode()]. *)
Variable resolve : string → string.
Variable obfuscate : string → Options → result string.

Inductive Event : Type :=
  | ReadFile (filePath : string) (r : result string)
  | Obfuscate (code : string) (options : Options) (r : result string)
  | WriteFile (filePath data : string) (r : option Exn).

(** The state of one invocation of the [onEnd] callback.  [trace] lists
    the calls made so far, each with the index of the task that made it. *)
Record HookState : Type := {
  options : Options;            (* captured by the closure *)
  tasks : list TaskState;
  fs : gmap string File;
  console : list string;
  settled : Promise;            (* the promise the callback returned *)
  trace : list (nat * Event)
}.

Definition world_of (s : HookState) : World :=
  {| files := fs s; stderr := console s |}.

(** The body of the mapped function (lines 31-40) up to its first [await]:
    a key that fails the test returns at once, a key that passes it has its
    path resolved (line 33) and its read issued (line 34). *)
Definition spawn (outputFile : string) : TaskState :=
  if Str.endsWith outputFile ".js" then TReading (resolve outputFile) else TDone.

Definition metafile_required : string :=
  "Metafile is required for the obfuscator plugin to work.".

(** The callback given to [build.onEnd], as far as it runs before it first
    waits: the two early returns (lines 17-19 and 21-26), otherwise the pool
    of [outputFiles.map(...)] handed to [Promise.all] (lines 28-42). *)
Definition onEnd (opts : Options) (res : BuildResult) (w : World) : HookState :=
  if negb (length (errors res) =? 0) then
    {| options := opts; tasks := []; fs := files w; console := stderr w;
       settled := Fulfilled; trace := [] |}
  else
    match metafile res with
    | None =>
        {| options := opts; tasks := []; fs := files w;
           console := stderr w ++ [metafile_required];
           settled := Fulfilled; trace := [] |}
    | Some m =>
        let outputFiles := Object_keys (outputs m) in
        let promises := spawn <$> outputFiles in
        {| options := opts; tasks := promises; fs := files w; console := stderr w;
           settled := if forallb is_done promises then Fulfilled else Pending;
           trace := [] |}
    end.

(** [Promise.all] after task [t] moved: the first rejection rejects, the
    last fulfilment fulfils, and a settled promise stays as it is. *)
Definition settle (t : TaskState) (ts : list TaskState) (p : Promise) : Promise :=
  match p with
  | Pending =>
      match t with
      | TFailed e => Rejected e
      | _ => if forallb is_done ts then Fulfilled else Pending
      end
  | _ => p
  end.

Definition advance (s : HookState) (i : nat) (t : TaskState)
    (files' : gmap string File) (ev : Event) : HookState :=
  {| options := options s;
     tasks := <[i := t]> (tasks s);
     fs := files';
     console := console s;
     settled := settle t (<[i := t]> (tasks s)) (settled s);
     trace := trace s ++ [(i, ev)] |}.

(** The scheduler lets task [i] take its next step; [None] when the
    task has settled or does not exist.  A pending read completes (line 34),
    a task that holds its content resumes and calls the transformation
    (lines 35-38) and issues its write, a pending write completes (line 39).
    A read and a write each act on the files at once.  An error ends the
    task: nothing in the body catches it.  Tasks go on after the promise of
    the callback has been rejected, as they do under [Promise.all]. *)
Definition step (i : nat) (s : HookState) : option HookState :=
  match tasks s !! i with
  | Some (TReading filePath) =>
      let r := Fs.readFile (fs s) filePath in
      Some (advance s i
              (match r with Ok code => TRead filePath code | Throw e => TFailed e end)
              (fs s) (ReadFile filePath r))
  | Some (TRead filePath code) =>
      let r := obfuscate code (options s) in
      Some (advance s i
              (match r with
               | Ok obfuscatedCode => TWriting filePath obfuscatedCode
               | Throw e => TFailed e
               end)
              (fs s) (Obfuscate code (options s) r))
  | Some (TWriting filePath obfuscatedCode) =>
      match Fs.writeFile (fs s) filePath obfuscatedCode with
      | Ok files' =>
          Some (advance s i TDone files' (WriteFile filePath obfuscatedCode None))
      | Throw e =>
          Some (advance s i (TFailed e) (fs s)
                  (WriteFile filePath obfuscatedCode (Some e)))
      end
  | Some TDone | Some (TFailed _) | None => None
  end.

Definition hook_step (s s' : HookState) : Prop := ∃ i, step i s = Some s'.

(** Run a schedule; a pick that cannot move is skipped. *)
Definition run (schedule : list nat) (s : HookState) : HookState :=
  foldl (λ s i, default s (step i s)) s schedule.

Definition quiescent (s : HookState) : bool := forallb is_settled (tasks s).

(** ** The plugin object *)

Record PluginBuild : Type :=
  { onEndCallbacks : list (BuildResult → World → HookState) }.

Record Plugin : Type :=
  { name : string; setup : PluginBuild → PluginBuild }.

Definition build_onEnd (build : PluginBuild)
    (callback : BuildResult → World → HookState) : PluginBuild :=
  {| onEndCallbacks := onEndCallbacks build ++ [callback] |}.

(** [obfuscatorPlugin(options = {})]: [None] is a call without argument. *)
Definition obfuscatorPlugin (opts : option Options) : Plugin :=
  let opts := default ∅ opts in
  {| name := "esbuild-obfuscator";
     setup := λ build, build_onEnd build (onEnd opts) |}.

(** The callbacks a plugin registers on a build that has none yet. *)
Definition registered (p : Plugin) : list (BuildResult → World → HookState) :=
  onEndCallbacks (setup p {| onEndCallbacks := [] |}).

End hook.

(** ** What the properties talk about *)

Section observations.

Context {V : Type}.
Variable resolve : string → string.
Variable obfuscate : string → gmap string V → result string.

(** The selection test of the mapped function. *)
Definition selected (outputFile : string) : bool := Str.endsWith outputFile ".js".

(** The keys the callback fans out over: none when it returns early. *)
Definition manifest_keys (res : BuildResult) : list string :=
  match errors res, metafile res with
  | [], Some m => Object_keys (outputs m)
  | _, _ => []
  end.

(** The calls task [i] has made, oldest first. *)
Definition events_of (i : nat) (tr : list (nat * @Event V)) : list (@Event V) :=
  omap (λ x, if decide (x.1 = i) then Some x.2 else None) tr.

(** The diagnostics of the synchronous part. *)
Definition diagnostics (res : BuildResult) : list string :=
  match errors res, metafile res with
  | [], None => [metafile_required]
  | _, _ => []
  end.

(** The messages an invocation added to the error channel of [w]. *)
Definition emitted (w : World) (s : @HookState V) : list string :=
  drop (length (stderr w)) (console s).

(** The calls of a task for key [outputFile], given where the task stands:
    a read of the resolved path, then the transformation of what was read
    with the registered options, then a write of its result to the same
    path; the sequence stops at the first failure. *)
Definition protocol (opts : gmap string V) (outputFile : string)
    (t : TaskState) (evs : list (@Event V)) : Prop :=
  let filePath := resolve outputFile in
  if selected outputFile then
    match t with
    | TReading p => p = filePath ∧ evs = []
    | TRead p code => p = filePath ∧ evs = [ReadFile filePath (Ok code)]
    | TWriting p out =>
        p = filePath ∧
        ∃ code, evs = [ReadFile filePath (Ok code); Obfuscate code opts (Ok out)]
    | TDone =>
        ∃ code out,
          evs = [ReadFile filePath (Ok code); Obfuscate code opts (Ok out);
                 WriteFile filePath out None]
    | TFailed e =>
        evs = [ReadFile filePath (Throw e)] ∨
        (∃ code, evs = [ReadFile filePath (Ok code); Obfuscate code opts (Throw e)]) ∨
        (∃ code out,
           evs = [ReadFile filePath (Ok code); Obfuscate code opts (Ok out);
                  WriteFile filePath out (Some e)])
    end
  else t = TDone ∧ evs = [].

(** One call against the files of its moment: a read returns what is
    there, the transformation returns what [obfuscate] returns, a write
    that succeeds replaces the content and one that fails changes
    nothing. *)
Inductive effect : gmap string File → @Event V → gmap string File → Prop :=
  | effect_read fl p :
      effect fl (ReadFile p (Fs.readFile fl p)) fl
  | effect_obfuscate fl code o :
      effect fl (Obfuscate code o (obfuscate code o)) fl
  | effect_write fl p data fl' :
      Fs.writeFile fl p data = Ok fl' →
      effect fl (WriteFile p data None) fl'
  | effect_write_fails fl p data e :
      Fs.writeFile fl p data = Throw e →
      effect fl (WriteFile p data (Some e)) fl.

Inductive history : gmap string File → list (nat * @Event V) → gmap string File → Prop :=
  | history_nil fl : history fl [] fl
  | history_snoc fl tr fl' i ev fl'' :
      history fl tr fl' → effect fl' ev fl'' → history fl (tr ++ [(i, ev)]) fl''.

(** The promise of [Promise.all] against the tasks it joins: pending
    while no task has failed and one is still in flight, fulfilled when
    all are, rejected with the reason of a task that failed. *)
Definition joined (p : Promise) (ts : list TaskState) : Prop :=
  match p with
  | Pending => (∀ i e, ts !! i ≠ Some (TFailed e)) ∧ forallb is_done ts = false
  | Fulfilled => forallb is_done ts = true
  | Rejected e => ∃ i, ts !! i = Some (TFailed e)
  end.

(** What holds of every state of an invocation on [keys] that started
    from the files [fl0] with the error channel at [con]. *)
Record Inv (opts : gmap string V) (keys : list string)
    (fl0 : gmap string File) (con : list string) (s : @HookState V) : Prop := {
  inv_options : options s = opts;
  inv_console : console s = con;
  inv_length : length (tasks s) = length keys;
  inv_protocol : ∀ i k t,
    keys !! i = Some k → tasks s !! i = Some t →
    protocol opts k t (events_of i (trace s));
  inv_origin : ∀ i ev, (i, ev) ∈ trace s → i < length keys;
  inv_history : history fl0 (trace s) (fs s);
  inv_settled : joined (settled s) (tasks s)
}.

(** Task [i] made the call [ev] when the files were [fl], and the call
    left them as [fl']. *)
Definition performed (fl0 : gmap string File) (tr : list (nat * @Event V))
    (i : nat) (ev : @Event V) (fl fl' : gmap string File) : Prop :=
  ∃ tr1 tr2, tr = tr1 ++ (i, ev) :: tr2 ∧ history fl0 tr1 fl ∧ effect fl ev fl'.

(** The error a call ended with, if it failed. *)
Definition failure_of (ev : @Event V) : option Exn :=
  match ev with
  | ReadFile _ (Throw e) | Obfuscate _ _ (Throw e) | WriteFile _ _ (Some e) => Some e
  | _ => None
  end.

(** Two selected keys never name the same file. *)
Definition distinct_targets (keys : list string) : Prop :=
  ∀ i j k k', keys !! i = Some k → keys !! j = Some k' →
    selected k = true → selected k' = true → resolve k = resolve k' → i = j.

(** While the selected keys name different files, the file of a task
    that is done holds what the task wrote. *)
Definition written_kept (keys : list string) (s : @HookState V) : Prop :=
  ∀ i k, keys !! i = Some k → selected k = true → tasks s !! i = Some TDone →
    ∃ out, last (events_of i (trace s)) = Some (WriteFile (resolve k) out None) ∧
           fs s !! resolve k = Some {| content := out; writable := true |}.

(** A task on its own: its state and the file it works on. *)
Definition local_step (opts : gmap string V) (tf : TaskState * option File)
  : TaskState * option File :=
  match tf.1 with
  | TReading p =>
      (match tf.2 with
       | Some f => TRead p (content f)
       | None => TFailed (ENOENT p)
       end, tf.2)
  | TRead p code =>
      (match obfuscate code opts with
       | Ok out => TWriting p out
       | Throw e => TFailed e
       end, tf.2)
  | TWriting p out =>
      match tf.2 with
      | Some f =>
          if writable f then (TDone, Some {| content := out; writable := true |})
          else (TFailed (EACCES p), tf.2)
      | None => (TDone, Some {| content := out; writable := true |})
      end
  | TDone | TFailed _ => tf
  end.

Definition outcome (opts : gmap string V) (filePath : string) (f : option File)
  : TaskState * option File :=
  Nat.iter 3 (local_step opts) (TReading filePath, f).

(** The file a call reads or writes. *)
Definition target (ev : @Event V) : option string :=
  match ev with
  | ReadFile p _ | WriteFile p _ _ => Some p
  | Obfuscate _ _ _ => None
  end.

(** The steps a task still has to take at most. *)
Definition remaining (t : TaskState) : nat :=
  match t with
  | TReading _ => 3
  | TRead _ _ => 2
  | TWriting _ _ => 1
  | TDone | TFailed _ => 0
  end.

(** The schedule that lets each of [n] tasks run to its end in turn. *)
Definition one_by_one (n : nat) : list nat := flat_map (λ i, [i; i; i]) (seq 0 n).

(** Each selected task and its file are where some number of steps of the
    task alone would have taken them from the start. *)
Definition on_orbit (opts : gmap string V) (keys : list string)
    (fl0 : gmap string File) (s : @HookState V) : Prop :=
  ∀ i k, keys !! i = Some k → selected k = true →
    ∃ n t, tasks s !! i = Some t ∧
      (t, fs s !! resolve k) =
      Nat.iter n (local_step opts) (TReading (resolve k), fl0 !! resolve k).

(** The file at [x] is empty, and so is whatever a task holds for it. *)
Definition empty_at (x : string) (s : @HookState V) : Prop :=
  content <$> fs s !! x = Some EmptyString ∧
  (∀ i code, tasks s !! i = Some (TRead x code) → code = EmptyString) ∧
  (∀ i out, tasks s !! i = Some (TWriting x out) → out = EmptyString) ∧
  (∀ i r, (i, ReadFile x r) ∈ trace s → r = Ok EmptyString) ∧
  (∀ i data r, (i, WriteFile x data r) ∈ trace s → data = EmptyString).

(** The call a task waits for, made on the state [s], ends with the error
    [e]: the read or the write fails, or the transformation throws. *)
Definition throws (s : @HookState V) (t : TaskState) (e : Exn) : Prop :=
  match t with
  | TReading p => Fs.readFile (fs s) p = Throw e
  | TRead p code => obfuscate code (options s) = Throw e
  | TWriting p out => Fs.writeFile (fs s) p out = Throw e
  | TDone | TFailed _ => False
  end.

(** *** The host

    The build tool calls the registered callback build after build.  A call
    returns to the host as soon as its promise has settled; when it was
    rejected, tasks of its pool can still be in flight, and they go on on
    the files every call shares.  The host keeps the world and the pool of
    every call made so far; the files and the error channel recorded in a
    call are those of the moment it last moved. *)
Record Host : Type := {
  host_world : World;
  host_calls : list (@HookState V)
}.

(** A call seen on the world as it is now. *)
Definition in_world (w : World) (s : @HookState V) : @HookState V :=
  {| options := options s; tasks := tasks s; fs := files w; console := stderr w;
     settled := settled s; trace := trace s |}.

(** The host calls the callback on a build outcome. *)
Definition host_call (callback : BuildResult → World → @HookState V)
    (res : BuildResult) (h : Host) : Host :=
  let s0 := callback res (host_world h) in
  {| host_world := world_of s0; host_calls := host_calls h ++ [s0] |}.

(** Task [i] of call [c] takes its next step, on the files as they are. *)
Definition host_step (c i : nat) (h : Host) : option Host :=
  match host_calls h !! c with
  | Some s =>
      match step obfuscate i (in_world (host_world h) s) with
      | Some s' =>
          Some {| host_world := world_of s'; host_calls := <[c := s']> (host_calls h) |}
      | None => None
      end
  | None => None
  end.

(** Run a schedule of picks (call, task); a pick that cannot move is
    skipped. *)
Definition host_picks (picks : list (nat * nat)) (h : Host) : Host :=
  foldl (λ h x, default h (host_step x.1 x.2 h)) h picks.

(** The picks of a schedule that go to call [n]. *)
Definition own_picks (n : nat) (picks : list (nat * nat)) : list nat :=
  omap (λ x, if decide (x.1 = n) then Some x.2 else None) picks.

(** No task of any call is in flight. *)
Definition host_idle (h : Host) : bool := forallb quiescent (host_calls h).

End observations.

(** ** Concrete builds

    The inputs of the examples: a working directory, option values, a toy
    transformation, and the builds of the test suite in miniature. *)

Module Example.

(** Option values as the tests pass them. *)
Inductive Value : Type :=
  | VBool (b : bool)
  | VStr (s : string)
  | VNum (n : Z)
  | VList (l : list string).

Definition resolve : string → string := Posix.resolve "/w".

(** A stand-in for the transformation: the empty text stays empty, one
    source does not parse, any other text is wrapped. *)
Definition obfuscate (code : string) (o : gmap string Value) : result string :=
  if String.eqb code EmptyString then Ok EmptyString
  else if String.eqb code "function hello() {" then Throw (Thrown "Unexpected token")
  else Ok ("var _0x1=[" +:+ code +:+ "];").

Definition mangled : gmap string Value :=
  {[ "renameGlobals" := VBool true; "identifierNamesGenerator" := VStr "mangled" ]}.

Definition meta (n : N) : OutputMeta := {| bytes := n; entryPoint := None |}.

Definition file (code : string) : File := {| content := code; writable := true |}.

Definition locked (code : string) : File := {| content := code; writable := false |}.

(** A build that failed, with no manifest. *)
Definition failed_build : BuildResult :=
  {| errors := [{| text := "Expected } but found end of file" |}];
     metafile := None |}.

(** A build that succeeded but was run without [metafile: true]. *)
Definition no_metafile : BuildResult := {| errors := []; metafile := None |}.

(** A script and a stylesheet. *)
Definition script_and_style : BuildResult :=
  {| errors := [];
     metafile := Some {| outputs := [("script.js", meta 51); ("style.css", meta 32)] |} |}.

Definition script_and_style_world : World :=
  {| files := {[ "/w/script.js" := file "function test() {}";
                 "/w/style.css" := file "body { background-color: #fff; }" ]};
     stderr := [] |}.

(** Two scripts; the second one is not on disk. *)
Definition two_scripts : BuildResult :=
  {| errors := [];
     metafile := Some {| outputs := [("input1.js", meta 63); ("input2.js", meta 65)] |} |}.

Definition second_missing : World :=
  {| files := {[ "/w/input1.js" := file "function greet() {}" ]}; stderr := [] |}.

Definition both_present : World :=
  {| files := {[ "/w/input1.js" := file "function greet() {}";
                 "/w/input2.js" := file "function salute() {}" ]};
     stderr := ["an earlier line"] |}.

(** One output that is empty. *)
Definition empty_output : BuildResult :=
  {| errors := []; metafile := Some {| outputs := [("out.js", meta 0)] |} |}.

Definition empty_world : World :=
  {| files := {[ "/w/out.js" := file EmptyString ]}; stderr := [] |}.

(** One output whose source the transformation rejects, and one that may
    not be written. *)
Definition one_output : BuildResult :=
  {| errors := []; metafile := Some {| outputs := [("out.js", meta 18)] |} |}.

Definition unparsable : World :=
  {| files := {[ "/w/out.js" := file "function hello() {" ]}; stderr := [] |}.

Definition read_only : World :=
  {| files := {[ "/w/out.js" := locked "function test() {}" ]}; stderr := [] |}.

(** Outputs with the extensions next to [.js]. *)
Definition mixed_extensions : BuildResult :=
  {| errors := [];
     metafile := Some {| outputs :=
       [("a.mjs", meta 1); ("b.cjs", meta 1); ("c.JS", meta 1); ("d.ts", meta 1);
        ("e.json", meta 1); ("f.js", meta 1)] |} |}.

(** *** Runs *)

(** The script of [script_and_style] processed to its end. *)
Definition script_done : @HookState Value :=
  run obfuscate [0; 0; 0] (onEnd resolve mangled script_and_style script_and_style_world).

(** The first of [two_scripts] is done; the read of the second fails. *)
Definition first_done : @HookState Value :=
  run obfuscate [0; 0; 0] (onEnd resolve mangled two_scripts second_missing).

Definition second_failed : @HookState Value := run obfuscate [1] first_done.

(** Both files of [two_scripts] after one pass of the transformation. *)
Definition transformed_once : World :=
  {| files := {[ "/w/input1.js" := file "var _0x1=[function greet() {}];";
                 "/w/input2.js" := file "var _0x1=[function salute() {}];" ]};
     stderr := [] |}.

(** The unparsable source has been read; its transformation is next. *)
Definition source_read : @HookState Value :=
  run obfuscate [0] (onEnd resolve mangled one_output unparsable).

(** The file that may not be written has been read and transformed; its
    write is next. *)
Definition write_pending : @HookState Value :=
  run obfuscate [0; 0] (onEnd resolve mangled one_output read_only).

(** *** Hosts *)

(** A build with the first script only. *)
Definition one_script : BuildResult :=
  {| errors := []; metafile := Some {| outputs := [("input1.js", meta 63)] |} |}.

(** A host that has made no call yet. *)
Definition fresh_host (w : World) : @Host Value :=
  {| host_world := w; host_calls := [] |}.

(** A host on which a build without manifest and then [two_scripts] were
    handed to the callback, and every task has run to its end. *)
Definition settled_host : @Host Value :=
  host_picks obfuscate [(1, 1); (1, 0); (1, 0); (1, 1); (1, 0); (1, 1)]
    (host_call (onEnd resolve mangled) two_scripts
       (host_call (onEnd resolve mangled) no_metafile (fresh_host both_present))).

(** A host on which [two_scripts] was handed to the callback with the
    second file missing: the read of the second file has failed, so the
    promise is rejected and the call has returned, while the task of the
    first file still waits for its read. *)
Definition stale_host : @Host Value :=
  host_picks obfuscate [(0, 1)]
    (host_call (onEnd resolve mangled) two_scripts (fresh_host second_missing)).

End Example.

(** ** Further observations *)

Section more_observations.

Context {V : Type}.
Variable resolve : string → string.

(** The files that are there, and which of them may be written, are as
    in [fl0]; a task that holds content or waits for its write works on a
    file that is there. *)
Definition files_kept (fl0 : gmap string File) (s : @HookState V) : Prop :=
  (∀ x, writable <$> fs s !! x = writable <$> fl0 !! x) ∧
  (∀ i p code, tasks s !! i = Some (TRead p code) → is_Some (fl0 !! p)) ∧
  (∀ i p out, tasks s !! i = Some (TWriting p out) → is_Some (fl0 !! p)).

(** There is no file at [x], no task got anything out of it, every read of
    it failed and nothing was written to it. *)
Definition absent_at (x : string) (s : @HookState V) : Prop :=
  fs s !! x = None ∧
  (∀ i code, tasks s !! i ≠ Some (TRead x code)) ∧
  (∀ i out, tasks s !! i ≠ Some (TWriting x out)) ∧
  (∀ i r, (i, ReadFile x r) ∈ trace s → r = Throw (ENOENT x)) ∧
  (∀ i data r, (i, WriteFile x data r) ∉ trace s).

(** The error of the first call of the trace that failed. *)
Definition first_failure (tr : list (nat * @Event V)) : option Exn :=
  head (omap (λ x, failure_of x.2) tr).

(** The steps the pool can still take at most. *)
Definition budget (s : @HookState V) : nat := sum_list (remaining <$> tasks s).

(** The number of keys that pass the selection test. *)
Definition selected_count (keys : list string) : nat :=
  length (filter (λ k, selected k = true) keys).

(** A task that has not read yet finds its file as it was in [fl0], and
    whatever a task has read is what [fl0] held. *)
Definition reads_original (fl0 : gmap string File) (keys : list string)
    (s : @HookState V) : Prop :=
  ∀ i k, keys !! i = Some k → selected k = true →
    (tasks s !! i = Some (TReading (resolve k)) →
     fs s !! resolve k = fl0 !! resolve k) ∧
    (∀ p r, ReadFile p r ∈ events_of i (trace s) →
     r = Fs.readFile fl0 (resolve k)).

End more_observations.

(** ** More concrete builds *)

Module ExampleMore.
Import Example.

(** A build that produced a stylesheet and a source map only. *)
Definition styles_only : BuildResult :=
  {| errors := [];
     metafile := Some {| outputs := [("style.css", meta 32); ("style.css.map", meta 90)] |} |}.

(** A build with an empty manifest. *)
Definition no_outputs : BuildResult :=
  {| errors := []; metafile := Some {| outputs := [] |} |}.

(** [two_scripts] with the first source unparsable. *)
Definition first_unparsable : World :=
  {| files := {[ "/w/input1.js" := file "function hello() {";
                 "/w/input2.js" := file "function salute() {}" ]};
     stderr := [] |}.

(** [two_scripts] run to the end, the second task first. *)
Definition both_done : @HookState Value :=
  run obfuscate [1; 1; 0; 1; 0; 0] (onEnd resolve mangled two_scripts both_present).

(** The same build called again on what that run left. *)
Definition both_done_again : @HookState Value :=
  run obfuscate [0; 1; 0; 1; 0; 1]
    (onEnd resolve mangled two_scripts (world_of both_done)).

(** [two_scripts] with the second file missing, run to the end. *)
Definition second_missing_done : @HookState Value :=
  run obfuscate [1; 0; 0; 0] (onEnd resolve mangled two_scripts second_missing).

(** [two_scripts] with the first source unparsable, run to the end. *)
Definition first_unparsable_done : @HookState Value :=
  run obfuscate [0; 1; 0; 1; 1] (onEnd resolve mangled two_scripts first_unparsable).

End ExampleMore.

(** * Properties *)

(** ** The suffix test *)

Module StrFacts.
Import Str.

Lemma length_app (a b : string) :
  String.length (a +:+ b) = String.length a + String.length b.
Proof. induction a as [|c a IH]; simpl; [done | by rewrite IH]. Qed.

Lemma substring_all (s : string) : String.substring 0 (String.length s) s = s.
Proof. induction s as [|c s IH]; simpl; [done | by rewrite IH]. Qed.

Lemma substring_app_r (a b : string) :
  String.substring (String.length a) (String.length b) (a +:+ b) = b.
Proof. induction a as [|c a IH]; simpl; [apply substring_all | done]. Qed.

Lemma substring_split (s : string) (n : nat) :
  n ≤ String.length s →
  s = String.substring 0 n s +:+ String.substring n (String.length s - n) s.
Proof.
  revert n. induction s as [|c s IH]; intros [|n] Hn; simpl in Hn.
  - done.
  - lia.
  - change (String c s = String.substring 0 (String.length (String c s)) (String c s)).
    by rewrite substring_all.
  - change (String c s =
      String c (String.substring 0 n s +:+ String.substring n (String.length s - n) s)).
    f_equal. apply IH. lia.
Qed.

Lemma endsWith_spec (s t : string) :
  endsWith s t = true ↔ ∃ pre, s = pre +:+ t.
Proof.
  unfold endsWith. split.
  - destruct (Nat.leb_spec (String.length t) (String.length s)) as [Hle|]; [|done].
    intros Heq%String.eqb_eq.
    exists (String.substring 0 (String.length s - String.length t) s).
    rewrite <- Heq at 2.
    rewrite (substring_split s (String.length s - String.length t)) at 1 by lia.
    do 2 f_equal. lia.
  - intros [pre ->]. rewrite length_app.
    destruct (Nat.leb_spec (String.length t) (String.length pre + String.length t));
      [|lia].
    replace (String.length pre + String.length t - String.length t)
      with (String.length pre) by lia.
    rewrite substring_app_r. apply String.eqb_refl.
Qed.

Lemma substring_app_skip (pre s : string) (n m : nat) :
  String.substring (String.length pre + n) m (pre +:+ s) = String.substring n m s.
Proof. induction pre as [|c pre IH]; simpl; [done | apply IH]. Qed.

(** Only the end of the string matters. *)
Lemma endsWith_app (pre s t : string) :
  String.length t ≤ String.length s →
  endsWith (pre +:+ s) t = endsWith s t.
Proof.
  intros Hle. unfold endsWith. rewrite length_app.
  destruct (Nat.leb_spec (String.length t) (String.length s)) as [_|]; [|lia].
  destruct (Nat.leb_spec (String.length t) (String.length pre + String.length s))
    as [_|]; [|lia].
  replace (String.length pre + String.length s - String.length t)
    with (String.length pre + (String.length s - String.length t)) by lia.
  by rewrite substring_app_skip.
Qed.

End StrFacts.

(** ** The path model *)

Lemma resolve_absolute (cwd p : string) :
  Posix.isAbsolute (Posix.resolve cwd p) = true.
Proof.
  unfold Posix.resolve, Posix.join.
  by destruct (rev (foldl Posix.normalize_step [] _)).
Qed.

(** ** The task pool *)

Ltac invert_step H :=
  unfold step in H;
  repeat match type of H with
    | context [match ?x with _ => _ end] => destruct x eqn:?
    end;
  simplify_eq.

Section hook_facts.

Context {V : Type}.
Variable resolve : string → string.
Variable obfuscate : string → gmap string V → result string.

Implicit Types (s : @HookState V) (opts : gmap string V) (w : World)
  (res : BuildResult) (keys : list string) (t : TaskState) (i j : nat).

Lemma forallb_lookup {A} (f : A → bool) (l : list A) (n : nat) (x : A) :
  forallb f l = true → l !! n = Some x → f x = true.
Proof.
  intros Hall Hn. rewrite forallb_forall in Hall.
  apply Hall, list_elem_of_In, list_elem_of_lookup. eauto.
Qed.

Lemma events_of_snoc i j (ev : @Event V) tr :
  events_of i (tr ++ [(j, ev)]) =
  events_of i tr ++ (if decide (j = i) then [ev] else []).
Proof.
  unfold events_of. rewrite omap_app. f_equal. simpl. by case_decide.
Qed.

Lemma step_unsettled i s s' :
  step obfuscate i s = Some s' →
  ∃ t, tasks s !! i = Some t ∧ is_settled t = false.
Proof. intros H. invert_step H; eauto. Qed.

Lemma step_others i j s s' :
  step obfuscate i s = Some s' → i ≠ j → tasks s' !! j = tasks s !! j.
Proof.
  intros H Hne. invert_step H; simpl; by rewrite list_lookup_insert_ne.
Qed.

Lemma step_console i s s' :
  step obfuscate i s = Some s' → console s' = console s ∧ options s' = options s.
Proof. intros H. invert_step H; done. Qed.

Lemma run_snoc sched i s :
  run obfuscate (sched ++ [i]) s =
  default (run obfuscate sched s) (step obfuscate i (run obfuscate sched s)).
Proof. unfold run. by rewrite foldl_app. Qed.

Lemma run_reachable sched s : rtc (hook_step obfuscate) s (run obfuscate sched s).
Proof.
  induction sched as [|i sched IH] using rev_ind; [done|].
  rewrite run_snoc.
  destruct (step obfuscate i (run obfuscate sched s)) as [s'|] eqn:Hs; simpl; [|done].
  eapply rtc_r; [done|]. by exists i.
Qed.

Lemma reachable_run s s' :
  rtc (hook_step obfuscate) s s' → ∃ sched, run obfuscate sched s = s'.
Proof.
  revert s'. apply rtc_ind_r.
  - by exists [].
  - intros s1 s2 _ [i Hi] [sched <-].
    exists (sched ++ [i]). by rewrite run_snoc, Hi.
Qed.

(** *** The invariant *)

Lemma onEnd_tasks opts res w :
  tasks (onEnd resolve opts res w) = spawn resolve <$> manifest_keys res.
Proof.
  unfold onEnd, manifest_keys.
  destruct (errors res); simpl; [|done]. by destruct (metafile res).
Qed.

Lemma onEnd_console opts res w :
  console (onEnd resolve opts res w) = stderr w ++ diagnostics res.
Proof.
  unfold onEnd, diagnostics.
  destruct (errors res); simpl; [|by rewrite app_nil_r].
  destruct (metafile res); simpl; [by rewrite app_nil_r | done].
Qed.

Lemma onEnd_settled opts res w :
  settled (onEnd resolve opts res w) =
  if forallb is_done (spawn resolve <$> manifest_keys res) then Fulfilled else Pending.
Proof.
  unfold onEnd, manifest_keys.
  destruct (errors res); simpl; [|done]. by destruct (metafile res).
Qed.

Lemma onEnd_fs opts res w :
  fs (onEnd resolve opts res w) = files w ∧
  trace (onEnd resolve opts res w) = [] ∧
  options (onEnd resolve opts res w) = opts.
Proof.
  unfold onEnd. destruct (errors res); simpl; [|done]. by destruct (metafile res).
Qed.

Lemma spawn_protocol opts k :
  protocol resolve opts k (spawn resolve k) [].
Proof.
  unfold protocol, spawn, selected. by destruct (Str.endsWith k ".js").
Qed.

Lemma spawn_not_failed keys i e :
  (spawn resolve <$> keys) !! i ≠ Some (TFailed e).
Proof.
  rewrite list_lookup_fmap. destruct (keys !! i) as [k|]; simpl; [|done].
  unfold spawn. by destruct (Str.endsWith k ".js").
Qed.

Lemma settle_joined p (ts : list TaskState) i t t' :
  joined p ts → ts !! i = Some t → is_settled t = false →
  joined (settle t' (<[i := t']> ts) p) (<[i := t']> ts).
Proof.
  intros Hj Ht Hun.
  assert (i < length ts) as Hi by (by eapply lookup_lt_Some).
  destruct p as [| |e]; simpl in *.
  - destruct Hj as [Hnf _].
    destruct t' as [p|p c|p c| |e]; simpl;
      try (destruct (forallb is_done _) eqn:Hall; simpl; [done|];
           split; [|done]; intros j e'; destruct (decide (i = j)) as [<-|?];
           [by rewrite list_lookup_insert_eq
           |rewrite list_lookup_insert_ne by done; apply Hnf]).
    exists i. by rewrite list_lookup_insert_eq.
  - pose proof (forallb_lookup _ _ _ _ Hj Ht). by destruct t.
  - destruct Hj as [j Hj]. exists j.
    rewrite list_lookup_insert_ne; [done|]. intros ->. by simplify_eq.
Qed.

Lemma Inv_onEnd opts res w :
  Inv resolve obfuscate opts (manifest_keys res) (files w)
    (stderr w ++ diagnostics res) (onEnd resolve opts res w).
Proof.
  destruct (onEnd_fs opts res w) as (Hfs & Htr & Hopts).
  split.
  - done.
  - apply onEnd_console.
  - by rewrite onEnd_tasks, length_fmap.
  - intros i k t Hk. rewrite onEnd_tasks, list_lookup_fmap, Hk, Htr. simpl.
    intros [= <-]. apply spawn_protocol.
  - rewrite Htr. by intros i ev ?%elem_of_nil.
  - rewrite Htr, Hfs. constructor.
  - rewrite onEnd_settled, onEnd_tasks.
    destruct (forallb is_done _) eqn:Hall; [done|].
    split; [|done]. intros i e. apply spawn_not_failed.
Qed.

Lemma Inv_step opts keys fl0 con i s s' :
  Inv resolve obfuscate opts keys fl0 con s →
  step obfuscate i s = Some s' →
  Inv resolve obfuscate opts keys fl0 con s'.
Proof.
  intros [Hopts Hcon Hlen Hproto Horig Hhist Hset] Hstep.
  destruct (step_unsettled _ _ _ Hstep) as (t & Ht & Hunset).
  assert (i < length (tasks s)) as Hi by (by eapply lookup_lt_Some).
  split.
  - destruct (step_console _ _ _ Hstep) as [_ ->]. done.
  - destruct (step_console _ _ _ Hstep) as [-> _]. done.
  - invert_step Hstep; simpl; by rewrite length_insert.
  - intros j k t' Hk Ht'.
    destruct (decide (i = j)) as [<-|Hne].
    + specialize (Hproto i k t Hk Ht). revert Hproto Ht'.
      unfold protocol. destruct (selected k); [|by intros [-> _]; simplify_eq].
      invert_step Hstep; simpl; rewrite events_of_snoc, decide_True by done;
        rewrite list_lookup_insert_eq by done; intros Hp [= <-];
        repeat match goal with
          | H : _ ∧ _ |- _ => destruct H
          | H : ∃ _, _ |- _ => destruct H
          end; simplify_eq;
        repeat match goal with H : events_of _ _ = _ |- _ => rewrite H end;
        simpl; eauto 10.
    + rewrite (step_others _ _ _ _ Hstep Hne) in Ht'.
      specialize (Hproto j k t' Hk Ht').
      assert (events_of j (trace s') = events_of j (trace s)) as ->; [|done].
      invert_step Hstep; simpl; rewrite events_of_snoc, decide_False by done;
        by rewrite app_nil_r.
  - intros j ev Hin.
    assert ((j, ev) ∈ trace s ∨ j = i) as Hor.
    { invert_step Hstep; simpl in Hin; apply elem_of_app in Hin as [?|Hin];
        auto; apply list_elem_of_singleton in Hin; simplify_eq; auto. }
    destruct Hor as [?| ->]; [by eauto | lia].
  - invert_step Hstep; simpl; (eapply history_snoc; [done|]);
      try (match goal with H : _ = _ |- _ => rewrite <- H end; constructor; fail);
      try (by constructor).
  - assert (∃ t' fl' ev, s' = advance s i t' fl' ev) as (t' & fl' & ev & ->)
      by (invert_step Hstep; eauto).
    simpl. by eapply settle_joined.
Qed.

Lemma Inv_rtc opts keys fl0 con s s' :
  Inv resolve obfuscate opts keys fl0 con s →
  rtc (hook_step obfuscate) s s' →
  Inv resolve obfuscate opts keys fl0 con s'.
Proof.
  intros HI Hrtc. induction Hrtc as [|s1 s2 s3 [i Hi] _ IH]; [done|].
  apply IH. by eapply Inv_step.
Qed.

Lemma Inv_reachable opts res w s :
  rtc (hook_step obfuscate) (onEnd resolve opts res w) s →
  Inv resolve obfuscate opts (manifest_keys res) (files w)
    (stderr w ++ diagnostics res) s.
Proof. apply Inv_rtc, Inv_onEnd. Qed.

(** With no task in the pool nothing can move. *)
Lemma no_tasks_final s s' :
  tasks s = [] → rtc (hook_step obfuscate) s s' → s' = s.
Proof.
  intros Hts Hrtc. destruct Hrtc as [|s1 s2 s3 [i Hi] _]; [done|].
  apply step_unsettled in Hi as (t & Ht & _). by rewrite Hts in Ht.
Qed.

Lemma registered_obfuscatorPlugin (o : option (gmap string V)) :
  registered (obfuscatorPlugin resolve o) = [onEnd resolve (default ∅ o)].
Proof. done. Qed.

(** *** The early returns *)

(** C3.  A build outcome with a non-empty error sequence, with or without
    a manifest: the callback starts no task, leaves the files and the error
    channel as they were, records no call, returns a fulfilled promise, and
    nothing can happen afterwards. *)
Theorem build_errors_skip opts res w :
  errors res ≠ [] →
  let s0 := onEnd resolve opts res w in
  tasks s0 = [] ∧ trace s0 = [] ∧ fs s0 = files w ∧
  console s0 = stderr w ∧ emitted w s0 = [] ∧ settled s0 = Fulfilled ∧
  ∀ s, rtc (hook_step obfuscate) s0 s → s = s0.
Proof.
  intros Herr s0. subst s0.
  assert (tasks (onEnd resolve opts res w) = []) as Hts.
  { rewrite onEnd_tasks. unfold manifest_keys. by destruct (errors res). }
  split_and!; try done.
  - unfold onEnd. by destruct (errors res).
  - unfold onEnd. by destruct (errors res).
  - unfold onEnd. by destruct (errors res).
  - unfold emitted, onEnd. destruct (errors res); [done|]. simpl.
    by rewrite drop_all.
  - unfold onEnd. by destruct (errors res).
  - intros s. by apply no_tasks_final.
Qed.

(** C2.  No build error and no manifest: exactly one message, the fixed
    text, goes to the error channel; the callback starts no task, so no
    file is read or written and the files are as they were; the promise
    it returns is fulfilled, and nothing can happen afterwards. *)
Theorem missing_metafile_logs opts res w :
  errors res = [] → metafile res = None →
  let s0 := onEnd resolve opts res w in
  console s0 =
    stderr w ++ ["Metafile is required for the obfuscator plugin to work."] ∧
  emitted w s0 = ["Metafile is required for the obfuscator plugin to work."] ∧
  tasks s0 = [] ∧ trace s0 = [] ∧ fs s0 = files w ∧ settled s0 = Fulfilled ∧
  ∀ s, rtc (hook_step obfuscate) s0 s → s = s0.
Proof.
  intros Herr Hmeta s0. subst s0.
  unfold emitted, onEnd. rewrite Herr, Hmeta. simpl.
  split_and!; try done.
  - by rewrite drop_app_length.
  - intros s. by apply no_tasks_final.
Qed.

(** *** Which files the calls touch *)

Lemma writeFile_lookup (fl fl' : gmap string File) p data :
  Fs.writeFile fl p data = Ok fl' →
  fl' !! p = Some {| content := data; writable := true |} ∧
  ∀ x, x ≠ p → fl' !! x = fl !! x.
Proof.
  unfold Fs.writeFile. intros H.
  assert (fl' = <[p := {| content := data; writable := true |}]> fl) as ->.
  { destruct (fl !! p) as [f|]; [destruct (writable f)|]; by simplify_eq. }
  split; [apply lookup_insert_eq|]. intros x Hx. by apply lookup_insert_ne.
Qed.

Lemma effect_frame (fl fl' : gmap string File) (ev : @Event V) x :
  effect obfuscate fl ev fl' →
  (∀ data r, ev ≠ WriteFile x data r) →
  fl' !! x = fl !! x.
Proof.
  intros Heff Hne. destruct Heff as [| |fl p data fl' Hw|]; try done.
  destruct (decide (x = p)) as [->|Hx]; [by destruct (Hne data None)|].
  by apply (writeFile_lookup _ _ _ _ Hw).
Qed.

Lemma history_frame (fl0 fl : gmap string File) (tr : list (nat * @Event V)) x :
  history obfuscate fl0 tr fl →
  (∀ i data r, (i, WriteFile x data r) ∉ tr) →
  fl !! x = fl0 !! x.
Proof.
  induction 1 as [|fl0 tr fl' i ev fl'' _ IH Heff]; intros Hno; [done|].
  rewrite <- IH.
  - eapply effect_frame; [done|]. intros data r ->.
    apply (Hno i data r). apply elem_of_app. right. by apply list_elem_of_singleton.
  - intros j data r Hin. apply (Hno j data r). apply elem_of_app. by left.
Qed.

Lemma elem_of_events_of i (ev : @Event V) tr :
  (i, ev) ∈ tr → ev ∈ events_of i tr.
Proof.
  intros Hin. unfold events_of. apply list_elem_of_omap.
  exists (i, ev). split; [done|]. simpl. by rewrite decide_True.
Qed.

(** Every call in the trace was made by the task of a selected key, and
    with the options of the registration; a call on a file is on the
    resolved path of that key. *)
Lemma trace_origin opts keys fl0 con s i ev :
  Inv resolve obfuscate opts keys fl0 con s →
  (i, ev) ∈ trace s →
  ∃ k, keys !! i = Some k ∧ selected k = true ∧
       (∀ p, target ev = Some p → p = resolve k) ∧
       (∀ code o r, ev = Obfuscate code o r → o = opts).
Proof.
  intros HI Hin.
  pose proof (inv_origin _ _ _ _ _ _ _ HI _ _ Hin) as Hlt.
  destruct (lookup_lt_is_Some_2 keys i Hlt) as [k Hk].
  rewrite <- (inv_length _ _ _ _ _ _ _ HI) in Hlt.
  destruct (lookup_lt_is_Some_2 _ i Hlt) as [t Ht].
  pose proof (inv_protocol _ _ _ _ _ _ _ HI _ _ _ Hk Ht) as Hp.
  apply elem_of_events_of in Hin. exists k. split; [done|].
  revert Hp. unfold protocol. destruct (selected k).
  - intros Hp. split; [done|].
    destruct t; simpl in Hp;
      repeat match goal with
        | H : _ ∧ _ |- _ => destruct H
        | H : _ ∨ _ |- _ => destruct H
        | H : ∃ _, _ |- _ => destruct H
        end;
      match goal with H : events_of _ _ = _ |- _ => rewrite H in Hin end;
      repeat (apply elem_of_cons in Hin as [->|Hin]);
      try (by apply elem_of_nil in Hin);
      (split; [intros p' [= <-] | intros c' o' r' [= <- <- <-]]); done.
  - intros [_ Hev]. rewrite Hev in Hin. by apply elem_of_nil in Hin.
Qed.

(** A file that no selected key resolves to is never written. *)
Lemma untargeted_frame opts keys fl0 con s x :
  Inv resolve obfuscate opts keys fl0 con s →
  (∀ j k, keys !! j = Some k → selected k = true → resolve k ≠ x) →
  (∀ i ev, (i, ev) ∈ trace s → target ev ≠ Some x) ∧ fs s !! x = fl0 !! x.
Proof.
  intros HI Hno.
  assert (∀ i ev, (i, ev) ∈ trace s → target ev ≠ Some x) as Hev.
  { intros i ev Hin Ht.
    destruct (trace_origin _ _ _ _ _ _ _ HI Hin) as (k & Hk & Hsel & Hp & _).
    apply (Hno i k Hk Hsel). symmetry. by apply Hp. }
  split; [done|].
  eapply history_frame; [apply (inv_history _ _ _ _ _ _ _ HI)|].
  intros i data r Hin. by apply (Hev _ _ Hin).
Qed.

(** C4.  A manifest key that does not end in [.js]: its task is fulfilled
    from the start and never makes a call.  Every read and write of the
    trace was made by the task of a key that does end in [.js], on the
    resolved path of that key; so, when no such key of the manifest
    resolves to the same file, no call of any task reads or writes the
    file, and its content stays what it was while the selected files are
    processed. *)
Theorem unselected_untouched opts res w s i outputFile :
  rtc (hook_step obfuscate) (onEnd resolve opts res w) s →
  manifest_keys res !! i = Some outputFile →
  Str.endsWith outputFile ".js" = false →
  tasks s !! i = Some TDone ∧
  events_of i (trace s) = [] ∧
  (∀ j ev p, (j, ev) ∈ trace s → target ev = Some p →
     j ≠ i ∧
     ∃ k, manifest_keys res !! j = Some k ∧ Str.endsWith k ".js" = true ∧
          p = resolve k) ∧
  ((∀ j k, manifest_keys res !! j = Some k → Str.endsWith k ".js" = true →
      resolve k ≠ resolve outputFile) →
   (∀ j ev, (j, ev) ∈ trace s → target ev ≠ Some (resolve outputFile)) ∧
   fs s !! resolve outputFile = files w !! resolve outputFile).
Proof.
  intros Hreach Hk Hsel.
  pose proof (Inv_reachable _ _ _ _ Hreach) as HI.
  assert (i < length (tasks s)) as Hlt.
  { rewrite (inv_length _ _ _ _ _ _ _ HI). by eapply lookup_lt_Some. }
  destruct (lookup_lt_is_Some_2 _ i Hlt) as [t Ht].
  pose proof (inv_protocol _ _ _ _ _ _ _ HI _ _ _ Hk Ht) as Hp.
  unfold protocol, selected in Hp. rewrite Hsel in Hp. destruct Hp as [-> Hev].
  split_and!; [done..| |].
  - intros j ev p Hin Hp.
    destruct (trace_origin _ _ _ _ _ _ _ HI Hin) as (k & Hk' & Hsel' & Hpath & _).
    split.
    + intros ->. rewrite Hk in Hk'. injection Hk' as <-.
      unfold selected in Hsel'. congruence.
    + exists k. split_and!; [done..|]. by apply Hpath.
  - intros Hno. by eapply untargeted_frame.
Qed.

(** *** Progress: every task settles *)

Lemma remaining_settled t : remaining t = 0 ↔ is_settled t = true.
Proof. by destruct t. Qed.

Lemma run_app sched1 sched2 s :
  run obfuscate (sched1 ++ sched2) s = run obfuscate sched2 (run obfuscate sched1 s).
Proof. unfold run. by rewrite foldl_app. Qed.

Lemma step_settled_None i s t :
  tasks s !! i = Some t → is_settled t = true → step obfuscate i s = None.
Proof. intros Ht Hs. unfold step. rewrite Ht. by destruct t. Qed.

Lemma step_is_Some i s t :
  tasks s !! i = Some t → is_settled t = false → is_Some (step obfuscate i s).
Proof.
  intros Ht Hs. unfold step. rewrite Ht.
  destruct t; try done; try by eexists.
  destruct (Fs.writeFile _ _ _); by eexists.
Qed.

Lemma step_remaining i s s' t :
  step obfuscate i s = Some s' → tasks s !! i = Some t →
  ∃ t', tasks s' !! i = Some t' ∧ remaining t' < remaining t.
Proof.
  intros Hstep Ht.
  assert (i < length (tasks s)) as Hi by (by eapply lookup_lt_Some).
  invert_step Hstep; simpl; rewrite list_lookup_insert_eq by done;
    eexists; (split; [done|]); simpl; lia.
Qed.

(** A settled task stays as it is. *)
Lemma settled_stays s s' i t :
  rtc (hook_step obfuscate) s s' →
  tasks s !! i = Some t → is_settled t = true → tasks s' !! i = Some t.
Proof.
  intros Hrtc Ht Hs. induction Hrtc as [|s1 s2 s3 [j Hj] _ IH]; [done|].
  apply IH. destruct (decide (j = i)) as [->|Hne].
  - by rewrite (step_settled_None _ _ _ Ht Hs) in Hj.
  - by rewrite (step_others _ _ _ _ Hj Hne).
Qed.

Lemma tasks_length_rtc s s' :
  rtc (hook_step obfuscate) s s' → length (tasks s') = length (tasks s).
Proof.
  induction 1 as [|s1 s2 s3 [j Hj] _ IH]; [done|]. rewrite IH.
  invert_step Hj; simpl; by rewrite length_insert.
Qed.

Lemma pick_remaining i s t :
  tasks s !! i = Some t →
  ∃ t', tasks (run obfuscate [i] s) !! i = Some t' ∧ remaining t' ≤ remaining t - 1.
Proof.
  intros Ht. simpl. destruct (step obfuscate i s) as [s'|] eqn:Hstep; simpl.
  - destruct (step_remaining _ _ _ _ Hstep Ht) as (t' & Ht' & Hlt).
    exists t'. split; [done|lia].
  - exists t. split; [done|].
    destruct (is_settled t) eqn:Hs.
    + apply remaining_settled in Hs. lia.
    + destruct (step_is_Some _ _ _ Ht Hs) as [? ?]. congruence.
Qed.

Lemma three_picks_settle i s t :
  tasks s !! i = Some t →
  ∃ t', tasks (run obfuscate [i; i; i] s) !! i = Some t' ∧ is_settled t' = true.
Proof.
  intros Ht.
  destruct (pick_remaining _ _ _ Ht) as (t1 & Ht1 & H1).
  destruct (pick_remaining _ _ _ Ht1) as (t2 & Ht2 & H2).
  destruct (pick_remaining _ _ _ Ht2) as (t3 & Ht3 & H3).
  exists t3. split; [done|]. apply remaining_settled.
  assert (remaining t ≤ 3) by (destruct t; simpl; lia). lia.
Qed.

Lemma one_by_one_settles n s i t :
  i < n → tasks s !! i = Some t →
  ∃ t', tasks (run obfuscate (one_by_one n) s) !! i = Some t' ∧ is_settled t' = true.
Proof.
  revert i t. induction n as [|n IH]; intros i t Hi Ht; [lia|].
  unfold one_by_one in *. rewrite seq_S, flat_map_app, run_app.
  change (flat_map (λ i, [i; i; i]) [0 + n]) with [n; n; n].
  set (s1 := run obfuscate (flat_map _ (seq 0 n)) s) in *.
  destruct (decide (i = n)) as [->|Hne].
  - assert (is_Some (tasks s1 !! n)) as [t1 Ht1].
    { apply lookup_lt_is_Some. unfold s1.
      rewrite (tasks_length_rtc _ _ (run_reachable _ s)).
      by eapply lookup_lt_Some. }
    by eapply three_picks_settle.
  - destruct (IH i t ltac:(lia) Ht) as (t' & Ht' & Hs').
    exists t'. split; [|done].
    by eapply settled_stays; [apply run_reachable|..].
Qed.

(** From every state the pool can be run until all its tasks have
    settled: no task waits for another. *)
Lemma can_finish s :
  quiescent (run obfuscate (one_by_one (length (tasks s))) s) = true.
Proof.
  unfold quiescent. apply forallb_forall. intros t' Hin.
  apply list_elem_of_In, list_elem_of_lookup in Hin as [i Hi].
  assert (i < length (tasks s)) as Hlt.
  { rewrite <- (tasks_length_rtc _ _ (run_reachable (one_by_one (length (tasks s))) s)).
    by eapply lookup_lt_Some. }
  destruct (lookup_lt_is_Some_2 _ i Hlt) as [t Ht].
  destruct (one_by_one_settles _ _ _ _ Hlt Ht) as (t'' & Ht'' & Hs).
  by simplify_eq.
Qed.

(** *** The selected files *)

Lemma events_of_elem i (ev : @Event V) tr :
  ev ∈ events_of i tr → (i, ev) ∈ tr.
Proof.
  unfold events_of. intros ([j ev'] & Hin & Heq)%list_elem_of_omap.
  simpl in Heq. case_decide; by simplify_eq.
Qed.

Lemma history_performed (fl0 fl : gmap string File) tr i (ev : @Event V) :
  history obfuscate fl0 tr fl → (i, ev) ∈ tr →
  ∃ fl1 fl2, performed obfuscate fl0 tr i ev fl1 fl2.
Proof.
  induction 1 as [|fl0 tr fl' j ev' fl'' Hh IH Heff]; intros Hin.
  - by apply elem_of_nil in Hin.
  - apply elem_of_app in Hin as [Hin|Hin].
    + destruct (IH Hin) as (fl1 & fl2 & tr1 & tr2 & -> & H1 & H2).
      exists fl1, fl2, tr1, (tr2 ++ [(j, ev')]).
      by rewrite <- app_assoc.
    + apply list_elem_of_singleton in Hin. simplify_eq.
      by exists fl', fl'', tr, [].
Qed.

Lemma effect_read_inv (fl fl' : gmap string File) p r :
  effect obfuscate fl (ReadFile p r) fl' → Fs.readFile fl p = r ∧ fl' = fl.
Proof. by inversion 1. Qed.

Lemma effect_obfuscate_inv (fl fl' : gmap string File) code o r :
  effect obfuscate fl (Obfuscate code o r) fl' → obfuscate code o = r ∧ fl' = fl.
Proof. by inversion 1. Qed.

Lemma effect_write_inv (fl fl' : gmap string File) p data :
  effect obfuscate fl (WriteFile p data None) fl' → Fs.writeFile fl p data = Ok fl'.
Proof. by inversion 1. Qed.

Lemma effect_write_fails_inv (fl fl' : gmap string File) p data e :
  effect obfuscate fl (WriteFile p data (Some e)) fl' →
  Fs.writeFile fl p data = Throw e ∧ fl' = fl.
Proof. by inversion 1. Qed.

Lemma fulfilled_all_done opts keys fl0 con s i t :
  Inv resolve obfuscate opts keys fl0 con s →
  settled s = Fulfilled → tasks s !! i = Some t → t = TDone.
Proof.
  intros HI Hf Ht. pose proof (inv_settled _ _ _ _ _ _ _ HI) as Hj.
  rewrite Hf in Hj. simpl in Hj.
  pose proof (forallb_lookup _ _ _ _ Hj Ht). by destruct t.
Qed.

(** *** Failures *)

Lemma step_fs_other i s s' x :
  step obfuscate i s = Some s' →
  (∀ p data, tasks s !! i = Some (TWriting p data) → p ≠ x) →
  fs s' !! x = fs s !! x.
Proof.
  intros Hstep Hx. invert_step Hstep; simpl; try done.
  match goal with H : Fs.writeFile _ _ _ = Ok _ |- _ =>
    apply (writeFile_lookup _ _ _ _ H) end.
  intros ->. by eapply Hx.
Qed.

Lemma protocol_path opts keys fl0 con s i k t p :
  Inv resolve obfuscate opts keys fl0 con s →
  keys !! i = Some k → tasks s !! i = Some t →
  (t = TReading p ∨ (∃ c, t = TRead p c) ∨ (∃ c, t = TWriting p c)) →
  selected k = true ∧ p = resolve k.
Proof.
  intros HI Hk Ht Hcase.
  pose proof (inv_protocol _ _ _ _ _ _ _ HI _ _ _ Hk Ht) as Hp.
  unfold protocol in Hp. destruct (selected k).
  - split; [done|]. destruct Hcase as [->|[[c ->]|[c ->]]]; by destruct Hp.
  - destruct Hp as [-> _]. by destruct Hcase as [?|[[? ?]|[? ?]]].
Qed.

(** A step of one task leaves the files of the other selected keys alone. *)
Lemma step_fs_distinct opts keys fl0 con s s' i j k :
  Inv resolve obfuscate opts keys fl0 con s →
  distinct_targets resolve keys →
  step obfuscate i s = Some s' → i ≠ j →
  keys !! j = Some k → selected k = true →
  fs s' !! resolve k = fs s !! resolve k.
Proof.
  intros HI Hd Hstep Hne Hk Hsel.
  eapply step_fs_other; [done|]. intros p data Ht ->.
  assert (i < length keys) as Hlt.
  { rewrite <- (inv_length _ _ _ _ _ _ _ HI). by eapply lookup_lt_Some. }
  destruct (lookup_lt_is_Some_2 _ i Hlt) as [k' Hk'].
  destruct (protocol_path _ _ _ _ _ _ _ _ (resolve k) HI Hk' Ht) as [Hsel' Heq];
    [by eauto|].
  apply Hne. by eapply Hd.
Qed.

Lemma written_kept_step opts keys fl0 con s s' i :
  Inv resolve obfuscate opts keys fl0 con s →
  distinct_targets resolve keys →
  step obfuscate i s = Some s' →
  written_kept resolve keys s → written_kept resolve keys s'.
Proof.
  intros HI Hd Hstep Hw j k Hk Hsel Hdone.
  destruct (decide (i = j)) as [<-|Hne].
  - destruct (step_unsettled _ _ _ Hstep) as (t & Ht & Hun).
    assert (i < length (tasks s)) as Hi by (by eapply lookup_lt_Some).
    invert_step Hstep; simpl in *;
      rewrite list_lookup_insert_eq in Hdone by done; simplify_eq.
    match goal with H : tasks s !! i = Some (TWriting ?p ?o) |- _ =>
      destruct (protocol_path _ _ _ _ _ _ _ _ p HI Hk H) as [_ ->]; [by eauto|];
      exists o end.
    rewrite events_of_snoc, decide_True, last_snoc by done.
    split; [done|].
    match goal with H : Fs.writeFile _ _ _ = Ok _ |- _ =>
      by apply (writeFile_lookup _ _ _ _ H) end.
  - rewrite (step_others _ _ _ _ Hstep Hne) in Hdone.
    destruct (Hw j k Hk Hsel Hdone) as (out & Hlast & Hfs).
    exists out. split.
    + assert (events_of j (trace s') = events_of j (trace s)) as ->; [|done].
      invert_step Hstep; simpl; rewrite events_of_snoc, decide_False by done;
        by rewrite app_nil_r.
    + by rewrite (step_fs_distinct _ _ _ _ _ _ _ _ _ HI Hd Hstep Hne Hk Hsel).
Qed.

Lemma written_kept_rtc opts keys fl0 con s s' :
  Inv resolve obfuscate opts keys fl0 con s →
  distinct_targets resolve keys →
  rtc (hook_step obfuscate) s s' →
  written_kept resolve keys s → written_kept resolve keys s'.
Proof.
  intros HI Hd Hrtc. induction Hrtc as [|s1 s2 s3 [i Hi] _ IH]; [done|].
  intros Hw. apply IH; [by eapply Inv_step | by eapply written_kept_step].
Qed.

Lemma written_kept_onEnd opts res w :
  written_kept resolve (manifest_keys res) (onEnd resolve opts res w).
Proof.
  intros i k Hk Hsel. rewrite onEnd_tasks, list_lookup_fmap, Hk. simpl.
  unfold spawn. unfold selected in Hsel. by rewrite Hsel.
Qed.

Lemma rejected_stays s s' e :
  rtc (hook_step obfuscate) s s' → settled s = Rejected e → settled s' = Rejected e.
Proof.
  induction 1 as [|s1 s2 s3 [i Hi] _ IH]; [done|]. intros Hr. apply IH.
  invert_step Hi; simpl; by rewrite Hr.
Qed.

(** What follows a step that failed its task. *)
Lemma failed_step_rejects opts res w s i s' e :
  rtc (hook_step obfuscate) (onEnd resolve opts res w) s →
  step obfuscate i s = Some s' →
  tasks s' !! i = Some (TFailed e) →
  (∃ ev, trace s' = trace s ++ [(i, ev)] ∧ failure_of ev = Some e) ∧
  (settled s = Pending → settled s' = Rejected e) ∧
  (∃ e0, settled s' = Rejected e0) ∧
  fs s' = fs s ∧
  ∀ s'', rtc (hook_step obfuscate) s' s'' →
    settled s'' = settled s' ∧
    tasks s'' !! i = Some (TFailed e) ∧
    (∀ j, tasks s !! j = Some TDone → tasks s'' !! j = Some TDone) ∧
    (distinct_targets resolve (manifest_keys res) →
     ∀ j k, manifest_keys res !! j = Some k → selected k = true →
       tasks s !! j = Some TDone →
       ∃ out,
         last (events_of j (trace s'')) = Some (WriteFile (resolve k) out None) ∧
         fs s'' !! resolve k = Some {| content := out; writable := true |}).
Proof.
  intros Hreach Hstep Hfail.
  pose proof (Inv_reachable _ _ _ _ Hreach) as HI.
  destruct (step_unsettled _ _ _ Hstep) as (t & Ht & Hun).
  assert (i < length (tasks s)) as Hi by (by eapply lookup_lt_Some).
  assert (∃ e0, settled s' = Rejected e0) as [e0 He0].
  { pose proof (inv_settled _ _ _ _ _ _ _ HI) as Hj.
    destruct (settled s) as [| |e1] eqn:Hs.
    - exists e. invert_step Hstep; simpl in *;
        rewrite list_lookup_insert_eq in Hfail by done; simplify_eq;
        by rewrite Hs.
    - simpl in Hj. pose proof (forallb_lookup _ _ _ _ Hj Ht). by destruct t.
    - exists e1. invert_step Hstep; simpl; by rewrite Hs. }
  assert (rtc (hook_step obfuscate) s s') as Hss' by (apply rtc_once; by exists i).
  split_and!.
  - invert_step Hstep; simpl in *;
      rewrite list_lookup_insert_eq in Hfail by done; simplify_eq;
      by eexists.
  - intros Hs. invert_step Hstep; simpl in *;
      rewrite list_lookup_insert_eq in Hfail by done; simplify_eq;
      by rewrite Hs.
  - by exists e0.
  - invert_step Hstep; simpl in *;
      rewrite list_lookup_insert_eq in Hfail by done; by simplify_eq.
  - intros s'' Hrtc. split_and!.
    + rewrite He0. by eapply rejected_stays.
    + by eapply settled_stays.
    + intros j Hj. eapply settled_stays; [etrans; [exact Hss'|exact Hrtc]|done..].
    + intros Hd j k Hk Hsel Hj.
      eapply (written_kept_rtc _ _ _ _ _ s'' (Inv_onEnd opts res w) Hd);
        [etrans; [exact Hreach|]; etrans; [exact Hss'|exact Hrtc]
        | apply written_kept_onEnd | done | done |].
      eapply settled_stays; [etrans; [exact Hss'|exact Hrtc]|done..].
Qed.

(** A call that throws fails its task: the step records the call with its
    error and nothing else of the state moves but the promise. *)
Lemma step_throws i s t e :
  tasks s !! i = Some t → throws obfuscate s t e →
  ∃ ev, step obfuscate i s = Some (advance s i (TFailed e) (fs s) ev) ∧
        failure_of ev = Some e.
Proof.
  intros Ht Hthrow. unfold step. rewrite Ht.
  destruct t as [p|p code|p out| |e']; simpl in Hthrow; try done;
    rewrite Hthrow; by eexists.
Qed.

(** What a task that is done wrote last is what the transformation
    returned for the content the task had read. *)
Lemma done_wrote_transformed opts res w s j k out :
  rtc (hook_step obfuscate) (onEnd resolve opts res w) s →
  manifest_keys res !! j = Some k → selected k = true →
  tasks s !! j = Some TDone →
  last (events_of j (trace s)) = Some (WriteFile (resolve k) out None) →
  ∃ code, obfuscate code opts = Ok out.
Proof.
  intros Hreach Hk Hsel Hdone Hlast.
  pose proof (Inv_reachable _ _ _ _ Hreach) as HI.
  pose proof (inv_protocol _ _ _ _ _ _ _ HI _ _ _ Hk Hdone) as Hp.
  unfold protocol in Hp. fold (selected k) in Hp. rewrite Hsel in Hp.
  destruct Hp as (code & out' & Hev).
  rewrite Hev in Hlast. simpl in Hlast. simplify_eq.
  exists code.
  assert ((j, Obfuscate code opts (Ok out)) ∈ trace s) as Hin.
  { apply events_of_elem. rewrite Hev. apply list_elem_of_further, list_elem_of_here. }
  by destruct (history_performed _ _ _ _ _ (inv_history _ _ _ _ _ _ _ HI) Hin)
    as (fl1 & fl2 & _ & _ & _ & _ & [Hobf _]%effect_obfuscate_inv).
Qed.

(** C5.  Whenever the call a task waits for throws (the read of its file
    fails, the transformation raises, or the write fails, with the error
    [e]), the step of the task ends the task with [e]: nothing in the body
    of the task catches it.  The step records the failed call, the promise
    of the callback is rejected (with [e] when it was still pending) and
    stays rejected with the same reason whatever runs afterwards, so nothing
    in the callback catches it either.  The failing step changes no file,
    the tasks that were done stay done, and while the selected keys name
    different files, the file of each task that was done still holds the
    text that task wrote, which is what the transformation returned to
    it. *)
Theorem task_failure_rejects opts res w s i t e :
  rtc (hook_step obfuscate) (onEnd resolve opts res w) s →
  tasks s !! i = Some t →
  throws obfuscate s t e →
  ∃ s',
    step obfuscate i s = Some s' ∧
    tasks s' !! i = Some (TFailed e) ∧
    (∃ ev, trace s' = trace s ++ [(i, ev)] ∧ failure_of ev = Some e) ∧
    (settled s = Pending → settled s' = Rejected e) ∧
    (∃ e0, settled s' = Rejected e0) ∧
    fs s' = fs s ∧
    ∀ s'', rtc (hook_step obfuscate) s' s'' →
      settled s'' = settled s' ∧
      tasks s'' !! i = Some (TFailed e) ∧
      (∀ j, tasks s !! j = Some TDone → tasks s'' !! j = Some TDone) ∧
      (distinct_targets resolve (manifest_keys res) →
       ∀ j k, manifest_keys res !! j = Some k → selected k = true →
         tasks s !! j = Some TDone →
         ∃ code out,
           obfuscate code opts = Ok out ∧
           last (events_of j (trace s'')) = Some (WriteFile (resolve k) out None) ∧
           fs s'' !! resolve k = Some {| content := out; writable := true |}).
Proof.
  intros Hreach Ht Hthrow.
  destruct (step_throws _ _ _ _ Ht Hthrow) as (ev & Hstep & _).
  assert (i < length (tasks s)) as Hi by (by eapply lookup_lt_Some).
  eexists. split; [exact Hstep|].
  assert (tasks (advance s i (TFailed e) (fs s) ev) !! i = Some (TFailed e)) as Hfail
    by (simpl; by rewrite list_lookup_insert_eq).
  split; [exact Hfail|].
  destruct (failed_step_rejects _ _ _ _ _ _ _ Hreach Hstep Hfail)
    as (Hev & Hpend & Hrej & Hfs & Hlater).
  split_and!; try done.
  intros s'' Hrtc. destruct (Hlater s'' Hrtc) as (Hs & Hi' & Hdone & Hkept).
  split_and!; try done.
  intros Hd j k Hk Hsel Hj.
  destruct (Hkept Hd j k Hk Hsel Hj) as (out & Hlast & Hfile).
  assert (rtc (hook_step obfuscate) (onEnd resolve opts res w) s'') as Hreach''.
  { etrans; [exact Hreach|]. etrans; [|exact Hrtc]. apply rtc_once. by exists i. }
  destruct (done_wrote_transformed _ _ _ _ _ _ _ Hreach'' Hk Hsel (Hdone j Hj) Hlast)
    as (code & Hcode).
  by exists code, out.
Qed.

(** *** The options *)

Lemma same_but_options_pick i s1 s2 :
  tasks s1 = tasks s2 → fs s1 = fs s2 → console s1 = console s2 →
  settled s1 = settled s2 →
  (∀ code, obfuscate code (options s2) = obfuscate code (options s1)) →
  let s1' := run obfuscate [i] s1 in
  let s2' := run obfuscate [i] s2 in
  tasks s1' = tasks s2' ∧ fs s1' = fs s2' ∧ console s1' = console s2' ∧
  settled s1' = settled s2' ∧ options s1' = options s1 ∧ options s2' = options s2.
Proof.
  intros Ht Hf Hc Hs Ho. simpl. unfold step. rewrite <- Ht, <- Hf.
  destruct (tasks s1 !! i) as [[p|p code|p out| |e]|]; simpl; try done.
  - by rewrite <- Ht, <- Hc, <- Hs.
  - rewrite Ho, <- Ht, <- Hc, <- Hs. done.
  - destruct (Fs.writeFile (fs s1) p out); simpl; by rewrite <- Ht, <- Hc, <- Hs.
Qed.

Lemma same_but_options_run sched s1 s2 :
  tasks s1 = tasks s2 → fs s1 = fs s2 → console s1 = console s2 →
  settled s1 = settled s2 →
  (∀ code, obfuscate code (options s2) = obfuscate code (options s1)) →
  let s1' := run obfuscate sched s1 in
  let s2' := run obfuscate sched s2 in
  tasks s1' = tasks s2' ∧ fs s1' = fs s2' ∧ console s1' = console s2' ∧
  settled s1' = settled s2'.
Proof.
  revert s1 s2. induction sched as [|i sched IH]; intros s1 s2 Ht Hf Hc Hs Ho; [done|].
  destruct (same_but_options_pick i s1 s2 Ht Hf Hc Hs Ho)
    as (Ht' & Hf' & Hc' & Hs' & Ho1 & Ho2).
  change (run obfuscate (i :: sched) s1)
    with (run obfuscate sched (run obfuscate [i] s1)).
  change (run obfuscate (i :: sched) s2)
    with (run obfuscate sched (run obfuscate [i] s2)).
  apply IH; try done. intros code. by rewrite Ho1, Ho2.
Qed.

Lemma obfuscate_calls opts res w s :
  rtc (hook_step obfuscate) (onEnd resolve opts res w) s →
  options s = opts ∧
  ∀ i code o r, (i, Obfuscate code o r) ∈ trace s →
    o = opts ∧ r = obfuscate code opts.
Proof.
  intros Hreach. pose proof (Inv_reachable _ _ _ _ Hreach) as HI.
  split; [apply (inv_options _ _ _ _ _ _ _ HI)|].
  intros i code o r Hin.
  destruct (trace_origin _ _ _ _ _ _ _ HI Hin) as (k & _ & _ & _ & Ho).
  rewrite (Ho _ _ _ eq_refl). split; [done|].
  destruct (history_performed _ _ _ _ _ (inv_history _ _ _ _ _ _ _ HI) Hin)
    as (fl1 & fl2 & _ & _ & _ & _ & [Hobf _]%effect_obfuscate_inv).
  by rewrite (Ho _ _ _ eq_refl) in Hobf.
Qed.

(** A task that holds the content of its file resumes by calling the
    transformation on that content, with the options of its state. *)
Lemma resume_calls_obfuscate i s p code :
  tasks s !! i = Some (TRead p code) →
  ∃ s', step obfuscate i s = Some s' ∧
        trace s' =
          trace s ++ [(i, Obfuscate code (options s) (obfuscate code (options s)))].
Proof. intros Ht. unfold step. rewrite Ht. by eexists. Qed.

(** Picked twice from the start, the task of a selected key whose file is
    there reads the file and hands its content to the transformation. *)
Lemma first_call opts res w i k f :
  manifest_keys res !! i = Some k → selected k = true →
  files w !! resolve k = Some f →
  trace (run obfuscate [i; i] (onEnd resolve opts res w)) =
    [(i, ReadFile (resolve k) (Ok (content f)));
     (i, Obfuscate (content f) opts (obfuscate (content f) opts))].
Proof.
  intros Hk Hsel Hf.
  destruct (onEnd_fs opts res w) as (Hfs & Htr & Hopts).
  assert (tasks (onEnd resolve opts res w) !! i = Some (TReading (resolve k))) as Ht.
  { rewrite onEnd_tasks, list_lookup_fmap, Hk. simpl. unfold spawn.
    unfold selected in Hsel. by rewrite Hsel. }
  assert (i < length (tasks (onEnd resolve opts res w))) as Hi
    by (by eapply lookup_lt_Some).
  change (run obfuscate [i; i] (onEnd resolve opts res w))
    with (run obfuscate [i] (run obfuscate [i] (onEnd resolve opts res w))).
  assert (run obfuscate [i] (onEnd resolve opts res w) =
          advance (onEnd resolve opts res w) i (TRead (resolve k) (content f))
            (files w) (ReadFile (resolve k) (Ok (content f)))) as ->.
  { simpl. unfold step. rewrite Ht, Hfs. unfold Fs.readFile. by rewrite Hf. }
  destruct (resume_calls_obfuscate i
              (advance (onEnd resolve opts res w) i (TRead (resolve k) (content f))
                 (files w) (ReadFile (resolve k) (Ok (content f))))
              (resolve k) (content f)) as (s' & Hstep & Htrace).
  { simpl. by rewrite list_lookup_insert_eq. }
  simpl run. rewrite Hstep. simpl default. rewrite Htrace. simpl.
  by rewrite Htr, Hopts.
Qed.

(** A task whose write is pending or done has called the transformation
    with the registered options, and the call returned. *)
Lemma transformed_before_write opts keys fl0 con s i k t :
  Inv resolve obfuscate opts keys fl0 con s →
  keys !! i = Some k → tasks s !! i = Some t →
  (t = TDone ∧ selected k = true ∨ ∃ p out, t = TWriting p out) →
  ∃ code out, (i, Obfuscate code opts (Ok out)) ∈ trace s.
Proof.
  intros HI Hk Ht Hcase.
  pose proof (inv_protocol _ _ _ _ _ _ _ HI _ _ _ Hk Ht) as Hp.
  unfold protocol in Hp.
  destruct Hcase as [[-> Hsel]|(p & out & ->)].
  - rewrite Hsel in Hp. destruct Hp as (code & out & Hev).
    exists code, out. apply events_of_elem. rewrite Hev.
    apply list_elem_of_further, list_elem_of_here.
  - destruct (selected k); [|by destruct Hp].
    destruct Hp as (_ & code & Hev).
    exists code, out. apply events_of_elem. rewrite Hev.
    apply list_elem_of_further, list_elem_of_here.
Qed.

(** C6.  The callback registered by [obfuscatorPlugin(opts)] hands [opts]
    to the transformation as it is.  The calls are made: picked twice from
    the start, the task of a key ending in [.js] whose file is there reads
    the file and calls the transformation on its content with [opts]; in
    every state a task that holds its content makes that call as its next
    step, and a task whose write is pending or done has made it.  Every call
    of the transformation in the trace received [opts] itself, so each key
    has the value given at registration, and returned what [obfuscate]
    returns on it.  The hook does not look into the options: under options
    that [obfuscate] treats alike, every schedule gives the same tasks,
    files, messages and promise. *)
Theorem options_forwarded opts callback res w s :
  callback ∈ registered (obfuscatorPlugin resolve (Some opts)) →
  rtc (hook_step obfuscate) (callback res w) s →
  (∀ i k f, manifest_keys res !! i = Some k → Str.endsWith k ".js" = true →
     files w !! resolve k = Some f →
     trace (run obfuscate [i; i] (callback res w)) =
       [(i, ReadFile (resolve k) (Ok (content f)));
        (i, Obfuscate (content f) opts (obfuscate (content f) opts))]) ∧
  (∀ i p code, tasks s !! i = Some (TRead p code) →
     ∃ s', step obfuscate i s = Some s' ∧
           trace s' = trace s ++ [(i, Obfuscate code opts (obfuscate code opts))]) ∧
  (∀ i k t, manifest_keys res !! i = Some k → tasks s !! i = Some t →
     (t = TDone ∧ Str.endsWith k ".js" = true ∨ ∃ p out, t = TWriting p out) →
     ∃ code out, (i, Obfuscate code opts (Ok out)) ∈ trace s) ∧
  options s = opts ∧
  (∀ i code o r, (i, Obfuscate code o r) ∈ trace s →
     o = opts ∧ (∀ key, o !! key = opts !! key) ∧ r = obfuscate code opts) ∧
  (∀ opts' sched,
     (∀ code, obfuscate code opts' = obfuscate code opts) →
     let s1 := run obfuscate sched (callback res w) in
     let s2 := run obfuscate sched (onEnd resolve opts' res w) in
     tasks s1 = tasks s2 ∧ fs s1 = fs s2 ∧ console s1 = console s2 ∧
     settled s1 = settled s2).
Proof.
  rewrite registered_obfuscatorPlugin. intros ->%list_elem_of_singleton Hreach.
  simpl in Hreach. destruct (obfuscate_calls _ _ _ _ Hreach) as [Ho Hev].
  simpl default. split_and!.
  - intros i k f Hk Hsel Hf. by apply first_call.
  - intros i p code Ht. rewrite <- Ho. by eapply resume_calls_obfuscate.
  - intros i k t Hk Ht Hcase.
    by eapply transformed_before_write; [by apply Inv_reachable|..].
  - done.
  - intros i code o r Hin. destruct (Hev _ _ _ _ Hin) as [-> ->]. done.
  - intros opts' sched Hsame. cbv zeta.
    destruct (onEnd_fs opts res w) as (Hf1 & _ & Ho1).
    destruct (onEnd_fs opts' res w) as (Hf2 & _ & Ho2).
    apply same_but_options_run.
    + by rewrite !onEnd_tasks.
    + by rewrite Hf1, Hf2.
    + by rewrite !onEnd_console.
    + by rewrite !onEnd_settled.
    + intros code. by rewrite Ho1, Ho2.
Qed.


(** *** The selection test *)

Lemma other_suffix_unselected pre suffix :
  suffix ∈ [".mjs"; ".cjs"; ".JS"; ".ts"; ".json"] →
  Str.endsWith (pre +:+ suffix) ".js" = false.
Proof.
  intros Hin.
  repeat (apply elem_of_cons in Hin as [->|Hin]);
    try (by apply elem_of_nil in Hin);
    by rewrite StrFacts.endsWith_app by (simpl; lia).
Qed.

(** C10.  A key is selected exactly when it is some prefix followed by the
    three characters [.js]; the test looks at the whole key.  A key ending
    in [.mjs], [.cjs], [.JS], [.ts] or [.json] fails the test: its task is
    born fulfilled and makes no call, in any state of any invocation.  A
    key ending in [.js] starts with the read of its resolved path. *)
Theorem selection_is_js_suffix :
  (∀ outputFile,
     Str.endsWith outputFile ".js" = true ↔ ∃ pre, outputFile = pre +:+ ".js") ∧
  (∀ pre, spawn resolve (pre +:+ ".js") = TReading (resolve (pre +:+ ".js"))) ∧
  (∀ pre suffix,
     suffix ∈ [".mjs"; ".cjs"; ".JS"; ".ts"; ".json"] →
     Str.endsWith (pre +:+ suffix) ".js" = false ∧
     spawn resolve (pre +:+ suffix) = TDone ∧
     ∀ (opts : gmap string V) res w s i,
       rtc (hook_step obfuscate) (onEnd resolve opts res w) s →
       manifest_keys res !! i = Some (pre +:+ suffix) →
       tasks s !! i = Some TDone ∧ events_of i (trace s) = []).
Proof.
  split_and!.
  - intros outputFile. apply StrFacts.endsWith_spec.
  - intros pre. unfold spawn.
    by rewrite (proj2 (StrFacts.endsWith_spec (pre +:+ ".js") ".js")) by eauto.
  - intros pre suffix Hin.
    pose proof (other_suffix_unselected pre _ Hin) as Hsel.
    split_and!; [done | unfold spawn; by rewrite Hsel |].
    intros opts res w s i Hreach Hk.
    pose proof (Inv_reachable _ _ _ _ Hreach) as HI.
    assert (i < length (tasks s)) as Hlt.
    { rewrite (inv_length _ _ _ _ _ _ _ HI). by eapply lookup_lt_Some. }
    destruct (lookup_lt_is_Some_2 _ i Hlt) as [t Ht].
    pose proof (inv_protocol _ _ _ _ _ _ _ HI _ _ _ Hk Ht) as Hp.
    unfold protocol, selected in Hp. rewrite Hsel in Hp. by destruct Hp as [-> ->].
Qed.

(** *** Empty files *)

Lemma empty_at_step x i s s' :
  obfuscate EmptyString (options s) = Ok EmptyString →
  step obfuscate i s = Some s' → empty_at x s → empty_at x s'.
Proof.
  intros Hobf Hstep (Hc & Hr & Hw & Htr & Htw).
  destruct (step_unsettled _ _ _ Hstep) as (t & Ht & Hun).
  assert (i < length (tasks s)) as Hi by (by eapply lookup_lt_Some).
  assert (Fs.readFile (fs s) x = Ok EmptyString) as Hread.
  { unfold Fs.readFile. destruct (fs s !! x) as [f|]; simpl in Hc; [|done].
    by injection Hc as ->. }
  unfold empty_at.
  invert_step Hstep; simpl; split_and!;
    try done;
    try (intros j c Hj; destruct (decide (i = j)) as [<-|Hne];
         [rewrite list_lookup_insert_eq in Hj by done; simplify_eq
         |rewrite list_lookup_insert_ne in Hj by done; eauto]);
    try (intros j r Hin; apply elem_of_app in Hin as [Hin|Hin];
         [by eauto | apply list_elem_of_singleton in Hin; simplify_eq]);
    try (intros j d r Hin; apply elem_of_app in Hin as [Hin|Hin];
         [by eauto | apply list_elem_of_singleton in Hin; simplify_eq]);
    try congruence;
    try (by eapply Hw);
    try (match goal with H : tasks s !! i = Some (TRead x ?code) |- _ =>
           rewrite (Hr _ _ H) in *; congruence end).
  match goal with H : Fs.writeFile _ ?p ?out = Ok _ |- _ =>
    destruct (writeFile_lookup _ _ _ _ H) as [Hp Hother];
    destruct (decide (x = p)) as [->|Hne] end.
  - rewrite Hp. simpl. f_equal. by eapply Hw.
  - by rewrite Hother.
Qed.

Lemma empty_at_rtc x s s' :
  obfuscate EmptyString (options s) = Ok EmptyString →
  rtc (hook_step obfuscate) s s' → empty_at x s → empty_at x s'.
Proof.
  intros Hobf Hrtc. induction Hrtc as [|s1 s2 s3 [i Hi] _ IH]; [done|].
  intros He. apply IH.
  - by destruct (step_console _ _ _ Hi) as [_ ->].
  - by eapply empty_at_step.
Qed.

Lemma empty_at_onEnd x opts res w :
  content <$> files w !! x = Some EmptyString →
  empty_at x (onEnd resolve opts res w).
Proof.
  intros Hc. destruct (onEnd_fs opts res w) as (Hfs & Htr & _).
  unfold empty_at. rewrite Hfs, Htr, onEnd_tasks. split_and!; try done.
  - intros i code Hi. apply list_lookup_fmap_Some in Hi as (k & Hk & _).
    unfold spawn in Hk. by destruct (Str.endsWith k ".js").
  - intros i out Hi. apply list_lookup_fmap_Some in Hi as (k & Hk & _).
    unfold spawn in Hk. by destruct (Str.endsWith k ".js").
  - by intros i r ?%elem_of_nil.
  - by intros i data r ?%elem_of_nil.
Qed.

(** C7.  When the transformation of the empty text is the empty text: a
    selected key whose file is empty has an empty file in every state of
    the invocation, and once its task is done its calls are the read of
    the empty content, the transformation of it, and the write of the
    empty text. *)
Theorem empty_file_stays_empty opts res w s i outputFile :
  obfuscate EmptyString opts = Ok EmptyString →
  rtc (hook_step obfuscate) (onEnd resolve opts res w) s →
  manifest_keys res !! i = Some outputFile →
  Str.endsWith outputFile ".js" = true →
  content <$> files w !! resolve outputFile = Some EmptyString →
  content <$> fs s !! resolve outputFile = Some EmptyString ∧
  (tasks s !! i = Some TDone →
   events_of i (trace s) =
     [ReadFile (resolve outputFile) (Ok EmptyString);
      Obfuscate EmptyString opts (Ok EmptyString);
      WriteFile (resolve outputFile) EmptyString None]).
Proof.
  intros Hobf Hreach Hk Hsel Hc.
  pose proof (Inv_reachable _ _ _ _ Hreach) as HI.
  destruct (onEnd_fs opts res w) as (_ & _ & Hopts).
  assert (empty_at (resolve outputFile) s) as (Hc' & _ & _ & Htr & Htw).
  { eapply empty_at_rtc; [by rewrite Hopts | done | by apply empty_at_onEnd]. }
  split; [done|]. intros Hdone.
  pose proof (inv_protocol _ _ _ _ _ _ _ HI _ _ _ Hk Hdone) as Hp.
  unfold protocol, selected in Hp. rewrite Hsel in Hp.
  destruct Hp as (code & out & Hev).
  assert (code = EmptyString) as ->.
  { assert (Ok code = Ok EmptyString) as [= ->]; [|done].
    apply (Htr i), events_of_elem. rewrite Hev. set_solver. }
  assert (out = EmptyString) as ->; [|done].
  apply (Htw i _ None), events_of_elem. rewrite Hev. set_solver.
Qed.

(** *** Tasks on different files do not interfere *)

Lemma local_step_settled opts (tf : TaskState * option File) :
  is_settled tf.1 = true → local_step obfuscate opts tf = tf.
Proof. destruct tf as [[] f]; by intros. Qed.

Lemma local_iter_settled opts n (tf : TaskState * option File) :
  is_settled tf.1 = true → Nat.iter n (local_step obfuscate opts) tf = tf.
Proof.
  intros Hs. induction n as [|n IH]; [done|]. simpl. rewrite IH.
  by apply local_step_settled.
Qed.

Lemma outcome_settled opts q f :
  is_settled (outcome obfuscate opts q f).1 = true.
Proof.
  unfold outcome. simpl. unfold local_step at 3. simpl.
  destruct f as [f|]; simpl; [|done].
  unfold local_step at 2. simpl.
  destruct (obfuscate (content f) opts); simpl; [|done].
  unfold local_step. simpl. by destruct (writable f).
Qed.

(** Wherever a task has settled, it is where three steps on its own file
    take it. *)
Lemma orbit_settled opts q f0 n t f :
  (t, f) = Nat.iter n (local_step obfuscate opts) (TReading q, f0) →
  is_settled t = true →
  (t, f) = outcome obfuscate opts q f0.
Proof.
  intros Heq Hs. unfold outcome. destruct (decide (n ≤ 3)) as [Hle|Hgt].
  - replace 3 with ((3 - n) + n) by lia. rewrite Nat.iter_add, <- Heq.
    by rewrite local_iter_settled.
  - rewrite Heq. replace n with ((n - 3) + 3) by lia. rewrite Nat.iter_add.
    apply local_iter_settled, outcome_settled.
Qed.

Lemma step_local i s s' t q :
  step obfuscate i s = Some s' → tasks s !! i = Some t →
  (t = TReading q ∨ (∃ c, t = TRead q c) ∨ (∃ c, t = TWriting q c)) →
  ∃ t', tasks s' !! i = Some t' ∧
        (t', fs s' !! q) = local_step obfuscate (options s) (t, fs s !! q).
Proof.
  intros Hstep Ht Hq.
  assert (i < length (tasks s)) as Hi by (by eapply lookup_lt_Some).
  unfold step in Hstep. rewrite Ht in Hstep.
  destruct Hq as [->|[[c ->]|[c ->]]]; simpl in Hstep.
  - injection Hstep as <-. simpl. rewrite list_lookup_insert_eq by done.
    eexists. split; [done|]. unfold local_step, Fs.readFile. simpl.
    by destruct (fs s !! q).
  - injection Hstep as <-. simpl. rewrite list_lookup_insert_eq by done.
    eexists. split; [done|]. unfold local_step. simpl.
    by destruct (obfuscate c (options s)).
  - unfold local_step. simpl. unfold Fs.writeFile in Hstep.
    destruct (fs s !! q) as [f|] eqn:Hf; [destruct (writable f)|];
      injection Hstep as <-; simpl; rewrite list_lookup_insert_eq by done;
      eexists; (split; [done|]); rewrite ?lookup_insert_eq, ?Hf; done.
Qed.

Lemma on_orbit_step opts keys fl0 con s s' i :
  Inv resolve obfuscate opts keys fl0 con s →
  distinct_targets resolve keys →
  step obfuscate i s = Some s' →
  on_orbit resolve obfuscate opts keys fl0 s → on_orbit resolve obfuscate opts keys fl0 s'.
Proof.
  intros HI Hd Hstep Ho j k Hk Hsel.
  destruct (Ho j k Hk Hsel) as (n & t & Ht & Heq).
  destruct (decide (i = j)) as [<-|Hne].
  - destruct (step_unsettled _ _ _ Hstep) as (t0 & Ht0 & Hun). simplify_eq.
    assert (t = TReading (resolve k) ∨ (∃ c, t = TRead (resolve k) c) ∨
            (∃ c, t = TWriting (resolve k) c)) as Hq.
    { destruct t as [p|p c|p c| |]; try done.
      - destruct (protocol_path _ _ _ _ _ _ _ _ p HI Hk Ht) as [_ ->]; eauto.
      - destruct (protocol_path _ _ _ _ _ _ _ _ p HI Hk Ht) as [_ ->]; eauto.
      - destruct (protocol_path _ _ _ _ _ _ _ _ p HI Hk Ht) as [_ ->]; eauto. }
    destruct (step_local _ _ _ _ _ Hstep Ht Hq) as (t' & Ht' & Hl).
    exists (S n), t'. split; [done|].
    rewrite Hl, (inv_options _ _ _ _ _ _ _ HI), Heq. done.
  - exists n, t. split; [by rewrite (step_others _ _ _ _ Hstep Hne)|].
    by rewrite (step_fs_distinct _ _ _ _ _ _ _ _ _ HI Hd Hstep Hne Hk Hsel).
Qed.

Lemma on_orbit_rtc opts keys fl0 con s s' :
  Inv resolve obfuscate opts keys fl0 con s →
  distinct_targets resolve keys →
  rtc (hook_step obfuscate) s s' →
  on_orbit resolve obfuscate opts keys fl0 s → on_orbit resolve obfuscate opts keys fl0 s'.
Proof.
  intros HI Hd Hrtc. induction Hrtc as [|s1 s2 s3 [i Hi] _ IH]; [done|].
  intros Ho. apply IH; [by eapply Inv_step | by eapply on_orbit_step].
Qed.

Lemma on_orbit_onEnd opts res w :
  on_orbit resolve obfuscate opts (manifest_keys res) (files w) (onEnd resolve opts res w).
Proof.
  intros i k Hk Hsel. exists 0, (TReading (resolve k)).
  destruct (onEnd_fs opts res w) as (-> & _ & _).
  rewrite onEnd_tasks, list_lookup_fmap, Hk. simpl.
  unfold spawn. unfold selected in Hsel. by rewrite Hsel.
Qed.

(** Once every task has settled, the tasks and the files are determined
    by the inputs alone, whatever the schedule was. *)
Lemma quiescent_outcome opts res w s :
  distinct_targets resolve (manifest_keys res) →
  rtc (hook_step obfuscate) (onEnd resolve opts res w) s →
  quiescent s = true →
  (∀ i k, manifest_keys res !! i = Some k →
     tasks s !! i =
     Some (if selected k
           then (outcome obfuscate opts (resolve k) (files w !! resolve k)).1
           else TDone)) ∧
  (∀ k, k ∈ manifest_keys res → selected k = true →
     fs s !! resolve k =
     (outcome obfuscate opts (resolve k) (files w !! resolve k)).2) ∧
  (∀ x, (∀ k, k ∈ manifest_keys res → selected k = true → resolve k ≠ x) →
     fs s !! x = files w !! x).
Proof.
  intros Hd Hreach Hq.
  pose proof (Inv_reachable _ _ _ _ Hreach) as HI.
  pose proof (on_orbit_rtc _ _ _ _ _ _ (Inv_onEnd opts res w) Hd Hreach
                (on_orbit_onEnd opts res w)) as Ho.
  assert (∀ i k, manifest_keys res !! i = Some k → selected k = true →
    tasks s !! i = Some (outcome obfuscate opts (resolve k) (files w !! resolve k)).1 ∧
    fs s !! resolve k = (outcome obfuscate opts (resolve k) (files w !! resolve k)).2)
    as Hboth.
  { intros i k Hk Hsel. destruct (Ho i k Hk Hsel) as (n & t & Ht & Heq).
    assert (is_settled t = true) as Hs by (by eapply forallb_lookup).
    rewrite <- (orbit_settled _ _ _ _ _ _ Heq Hs). done. }
  split_and!.
  - intros i k Hk. destruct (selected k) eqn:Hsel; [by apply Hboth|].
    assert (i < length (tasks s)) as Hlt.
    { rewrite (inv_length _ _ _ _ _ _ _ HI). by eapply lookup_lt_Some. }
    destruct (lookup_lt_is_Some_2 _ i Hlt) as [t Ht].
    pose proof (inv_protocol _ _ _ _ _ _ _ HI _ _ _ Hk Ht) as Hp.
    unfold protocol in Hp. rewrite Hsel in Hp. by destruct Hp as [-> _].
  - intros k [i Hk]%list_elem_of_lookup Hsel. by apply (Hboth i).
  - intros x Hx. eapply untargeted_frame; [done|].
    intros j k Hk. apply Hx, list_elem_of_lookup. eauto.
Qed.

(** A task whose file is there and may be written, and whose content the
    transformation accepts, ends done, with the transformed content in the
    file. *)
Lemma outcome_done opts q f out :
  writable f = true → obfuscate (content f) opts = Ok out →
  outcome obfuscate opts q (Some f) =
    (TDone, Some {| content := out; writable := true |}).
Proof.
  intros Hw Hobf. unfold outcome. simpl. unfold local_step at 3. simpl.
  unfold local_step at 2. simpl. rewrite Hobf.
  unfold local_step. simpl. by rewrite Hw.
Qed.

(** C1.  No build error and a manifest [m]: for the key [outputFile] at
    position [i] of the manifest, ending in [.js], the calls of its task
    follow the protocol (read of the resolved path, transformation of the
    content with the registered options, write of the result to the same
    path), every call of the trace returned what the files of its moment
    gave, and the pool can always be run to its end.  When the callback's
    promise is fulfilled the task is done, and a task that is done made
    exactly three calls: it read [code], the whole content of the file at
    the resolved path at that moment, [obfuscate] turned [code] with the
    options into [out], and the write left [out] as the content of the file
    at the same path.  And when the selected keys name different files, the
    file is there and may be written, and the transformation accepts its
    content, then once all tasks have settled the task is done and the file
    holds the transformation of the content it had at the start. *)
Theorem selected_files_processed opts res w m s i outputFile :
  errors res = [] → metafile res = Some m →
  rtc (hook_step obfuscate) (onEnd resolve opts res w) s →
  Object_keys (outputs m) !! i = Some outputFile →
  Str.endsWith outputFile ".js" = true →
  let filePath := resolve outputFile in
  (∃ t, tasks s !! i = Some t ∧
        protocol resolve opts outputFile t (events_of i (trace s))) ∧
  history obfuscate (files w) (trace s) (fs s) ∧
  (∃ s', rtc (hook_step obfuscate) s s' ∧ quiescent s' = true) ∧
  (settled s = Fulfilled → tasks s !! i = Some TDone) ∧
  (tasks s !! i = Some TDone →
   ∃ code out fl1 fl2 fl3,
     events_of i (trace s) =
       [ReadFile filePath (Ok code); Obfuscate code opts (Ok out);
        WriteFile filePath out None] ∧
     performed obfuscate (files w) (trace s) i (ReadFile filePath (Ok code)) fl1 fl1 ∧
     content <$> fl1 !! filePath = Some code ∧
     obfuscate code opts = Ok out ∧
     performed obfuscate (files w) (trace s) i (WriteFile filePath out None) fl2 fl3 ∧
     fl3 !! filePath = Some {| content := out; writable := true |}) ∧
  (distinct_targets resolve (manifest_keys res) → quiescent s = true →
   ∀ f out, files w !! filePath = Some f → writable f = true →
     obfuscate (content f) opts = Ok out →
     tasks s !! i = Some TDone ∧
     fs s !! filePath = Some {| content := out; writable := true |}).
Proof.
  intros Herr Hmeta Hreach Hk Hsel filePath.
  pose proof (Inv_reachable _ _ _ _ Hreach) as HI.
  assert (manifest_keys res = Object_keys (outputs m)) as Hkeys.
  { unfold manifest_keys. by rewrite Herr, Hmeta. }
  rewrite Hkeys in HI.
  assert (i < length (tasks s)) as Hlt.
  { rewrite (inv_length _ _ _ _ _ _ _ HI). by eapply lookup_lt_Some. }
  destruct (lookup_lt_is_Some_2 _ i Hlt) as [t Ht].
  pose proof (inv_protocol _ _ _ _ _ _ _ HI _ _ _ Hk Ht) as Hp.
  pose proof (inv_history _ _ _ _ _ _ _ HI) as Hh.
  split_and!.
  - by exists t.
  - done.
  - exists (run obfuscate (one_by_one (length (tasks s))) s).
    split; [apply run_reachable | apply can_finish].
  - intros Hf. by rewrite <- (fulfilled_all_done _ _ _ _ _ _ _ HI Hf Ht).
  - intros Hdone. rewrite Ht in Hdone. injection Hdone as ->.
    unfold protocol, selected in Hp. rewrite Hsel in Hp.
    destruct Hp as (code & out & Hev). fold filePath in Hev.
    assert ((i, ReadFile filePath (Ok code)) ∈ trace s) as Hr.
    { apply events_of_elem. rewrite Hev. set_solver. }
    assert ((i, Obfuscate code opts (Ok out)) ∈ trace s) as Ho.
    { apply events_of_elem. rewrite Hev. set_solver. }
    assert ((i, WriteFile filePath out None) ∈ trace s) as Hw.
    { apply events_of_elem. rewrite Hev. set_solver. }
    destruct (history_performed _ _ _ _ _ Hh Hr) as (fl1 & fl1' & Hp1).
    destruct (history_performed _ _ _ _ _ Hh Ho) as (flo & flo' & Hp2).
    destruct (history_performed _ _ _ _ _ Hh Hw) as (fl2 & fl3 & Hp3).
    pose proof Hp1 as (_ & _ & _ & _ & [Hread ->]%effect_read_inv).
    pose proof Hp2 as (_ & _ & _ & _ & [Hobf _]%effect_obfuscate_inv).
    pose proof Hp3 as (_ & _ & _ & _ & Hwrite%effect_write_inv).
    exists code, out, fl1, fl2, fl3. split_and!; try done.
    + unfold Fs.readFile in Hread. destruct (fl1 !! filePath); by simplify_eq.
    + by apply (writeFile_lookup _ _ _ _ Hwrite).
  - intros Hd Hq f out Hf Hw Hobf. subst filePath.
    rewrite <- Hkeys in Hk.
    destruct (quiescent_outcome _ _ _ _ Hd Hreach Hq) as (Hts & Hfs & _).
    assert (outputFile ∈ manifest_keys res) as Hin
      by (apply list_elem_of_lookup; eauto).
    rewrite (Hts i _ Hk), (Hfs _ Hin Hsel). unfold selected. rewrite Hsel, Hf.
    by rewrite (outcome_done _ _ _ _ Hw Hobf).
Qed.

Lemma fulfilled_iff_all_done opts keys fl0 con s :
  Inv resolve obfuscate opts keys fl0 con s →
  settled s = Fulfilled ↔ forallb is_done (tasks s) = true.
Proof.
  intros HI. pose proof (inv_settled _ _ _ _ _ _ _ HI) as Hj.
  destruct (settled s) as [| |e]; simpl in Hj.
  - destruct Hj as [_ Hj]. split; [done|congruence].
  - done.
  - destruct Hj as [i Hi]. split; [done|]. intros Hall.
    by pose proof (forallb_lookup _ _ _ _ Hall Hi).
Qed.

Lemma emitted_diagnostics opts res w s :
  rtc (hook_step obfuscate) (onEnd resolve opts res w) s →
  emitted w s = diagnostics res.
Proof.
  intros Hreach. unfold emitted.
  rewrite (inv_console _ _ _ _ _ _ _ (Inv_reachable _ _ _ _ Hreach)).
  by rewrite drop_app_length.
Qed.

(** *** One call after another *)

Lemma in_world_of s : in_world (world_of s) s = s.
Proof. by destruct s. Qed.

Lemma step_quiescent_None i s :
  quiescent s = true → step obfuscate i s = None.
Proof.
  intros Hq. unfold step. destruct (tasks s !! i) as [t|] eqn:Ht; [|done].
  pose proof (forallb_lookup _ _ _ _ Hq Ht). by destruct t.
Qed.

Lemma own_picks_snoc n picks c i :
  own_picks n (picks ++ [(c, i)]) =
  own_picks n picks ++ (if decide (c = n) then [i] else []).
Proof. unfold own_picks. rewrite omap_app. f_equal. simpl. by case_decide. Qed.

(** When no earlier call has a task in flight, only the new call moves:
    whatever the schedule picks, the earlier calls stay as they are, and the
    new call and the world are where the picks that went to it have taken
    the call on its own. *)
Lemma host_picks_new_call (callback : BuildResult → World → @HookState V)
    res (h : @Host V) picks :
  host_idle h = true →
  let s := run obfuscate (own_picks (length (host_calls h)) picks)
             (callback res (host_world h)) in
  host_picks obfuscate picks (host_call callback res h) =
    {| host_world := world_of s; host_calls := host_calls h ++ [s] |}.
Proof.
  intros Hidle. induction picks as [|[c i] picks IH] using rev_ind; [done|].
  cbv zeta in *. unfold host_picks in *. rewrite foldl_app, IH. simpl.
  rewrite own_picks_snoc, run_app.
  set (s := run obfuscate (own_picks _ picks) _) in *.
  unfold host_step. simpl.
  destruct (decide (c = length (host_calls h))) as [->|Hne].
  - rewrite list_lookup_middle by done. rewrite in_world_of. simpl.
    destruct (step obfuscate i s) as [s'|]; simpl; [|done].
    f_equal. rewrite insert_app_r_alt by done. by rewrite Nat.sub_diag.
  - replace (run obfuscate [] s) with s by done.
    destruct (decide (c < length (host_calls h))) as [Hlt|Hge].
    + rewrite lookup_app_l by done.
      destruct (lookup_lt_is_Some_2 _ _ Hlt) as [sc Hsc]. rewrite Hsc.
      rewrite step_quiescent_None; [done|].
      by apply (forallb_lookup _ _ _ _ Hidle Hsc).
    + rewrite (proj2 (lookup_ge_None _ _)); [done|].
      rewrite length_app. simpl. lia.
Qed.

(** The error channel plays no part in what the tasks do. *)
Lemma run_console_irrelevant sched s1 s2 :
  options s1 = options s2 → tasks s1 = tasks s2 → fs s1 = fs s2 →
  settled s1 = settled s2 → trace s1 = trace s2 →
  let s1' := run obfuscate sched s1 in
  let s2' := run obfuscate sched s2 in
  tasks s1' = tasks s2' ∧ fs s1' = fs s2' ∧ settled s1' = settled s2' ∧
  trace s1' = trace s2'.
Proof.
  revert s1 s2. induction sched as [|i sched IH]; intros s1 s2 Ho Ht Hf Hs Htr; [done|].
  change (run obfuscate (i :: sched) s1)
    with (run obfuscate sched (run obfuscate [i] s1)).
  change (run obfuscate (i :: sched) s2)
    with (run obfuscate sched (run obfuscate [i] s2)).
  apply IH; simpl; unfold step; rewrite <- Ho, <- Ht, <- Hf;
    destruct (tasks s1 !! i) as [[p|p code|p out| |e]|]; simpl; try done;
    try (by rewrite <- ?Ht, <- ?Hs, <- ?Htr, <- ?Ho);
    destruct (Fs.writeFile (fs s1) p out); simpl;
    by rewrite <- ?Ht, <- ?Hs, <- ?Htr.
Qed.

(** C8, for calls made when no task of an earlier call is in flight.  The
    callback keeps nothing from one call to the next: a call starts from a
    fresh pool of tasks and an empty trace, built from the build outcome and
    the files alone.  Take two hosts, each with whatever calls it has made
    before, all of them settled, and with the same files.  The same build
    outcome is handed to the callback on each, and the two schedules,
    whatever else they pick, move the tasks of the new call alike.  Then in
    every state the two new calls have the same tasks, the same trace and
    the same promise, they have emitted the same diagnostics, and the files
    are the same.  When moreover the keys ending in [.js] name different
    files, the schedules need not agree: once the tasks of both calls have
    settled, tasks, files and diagnostics are the same. *)
Theorem invocations_agree opts callback res (h1 h2 : @Host V) :
  callback ∈ registered (obfuscatorPlugin resolve (Some opts)) →
  host_idle h1 = true → host_idle h2 = true →
  files (host_world h1) = files (host_world h2) →
  let n1 := length (host_calls h1) in
  let n2 := length (host_calls h2) in
  let after1 picks := host_picks obfuscate picks (host_call callback res h1) in
  let after2 picks := host_picks obfuscate picks (host_call callback res h2) in
  (tasks (callback res (host_world h1)) = spawn resolve <$> manifest_keys res ∧
   trace (callback res (host_world h1)) = []) ∧
  (∀ picks1 picks2,
     own_picks n1 picks1 = own_picks n2 picks2 →
     ∃ s1 s2,
       host_calls (after1 picks1) !! n1 = Some s1 ∧
       host_calls (after2 picks2) !! n2 = Some s2 ∧
       tasks s1 = tasks s2 ∧ trace s1 = trace s2 ∧ settled s1 = settled s2 ∧
       emitted (host_world h1) s1 = emitted (host_world h2) s2 ∧
       files (host_world (after1 picks1)) =
       files (host_world (after2 picks2))) ∧
  (distinct_targets resolve (manifest_keys res) →
   ∀ picks1 picks2,
     ∃ s1 s2,
       host_calls (after1 picks1) !! n1 = Some s1 ∧
       host_calls (after2 picks2) !! n2 = Some s2 ∧
       (quiescent s1 = true → quiescent s2 = true →
        tasks s1 = tasks s2 ∧
        emitted (host_world h1) s1 = emitted (host_world h2) s2 ∧
        files (host_world (after1 picks1)) =
        files (host_world (after2 picks2)))).
Proof.
  rewrite registered_obfuscatorPlugin. intros ->%list_elem_of_singleton Hi1 Hi2 Hfiles.
  simpl default. intros n1 n2 after1 after2.
  set (w1 := host_world h1) in *. set (w2 := host_world h2) in *.
  split_and!.
  - apply onEnd_tasks.
  - apply onEnd_fs.
  - intros picks1 picks2 Hpicks. unfold after1, after2.
    rewrite (host_picks_new_call _ res h1 picks1 Hi1).
    rewrite (host_picks_new_call _ res h2 picks2 Hi2).
    fold n1 n2 w1 w2. rewrite Hpicks.
    set (sched := own_picks n2 picks2).
    destruct (onEnd_fs opts res w1) as (Hf1 & Ht1 & Ho1).
    destruct (onEnd_fs opts res w2) as (Hf2 & Ht2 & Ho2).
    destruct (run_console_irrelevant sched (onEnd resolve opts res w1)
                (onEnd resolve opts res w2)) as (Ht & Hf & Hs & Htr).
    { by rewrite Ho1, Ho2. }
    { by rewrite !onEnd_tasks. }
    { by rewrite Hf1, Hf2. }
    { by rewrite !onEnd_settled. }
    { by rewrite Ht1, Ht2. }
    do 2 eexists. simpl.
    split; [by apply list_lookup_middle|]. split; [by apply list_lookup_middle|].
    split_and!; try done.
    by rewrite !(emitted_diagnostics _ _ _ _ (run_reachable _ _)).
  - intros Hd picks1 picks2. unfold after1, after2.
    rewrite (host_picks_new_call _ res h1 picks1 Hi1).
    rewrite (host_picks_new_call _ res h2 picks2 Hi2).
    fold n1 n2 w1 w2.
    set (s1 := run obfuscate (own_picks n1 picks1) (onEnd resolve opts res w1)).
    set (s2 := run obfuscate (own_picks n2 picks2) (onEnd resolve opts res w2)).
    exists s1, s2. simpl.
    split; [by apply list_lookup_middle|]. split; [by apply list_lookup_middle|].
    intros Hq1 Hq2.
    pose proof (run_reachable (own_picks n1 picks1) (onEnd resolve opts res w1)) as Hr1.
    pose proof (run_reachable (own_picks n2 picks2) (onEnd resolve opts res w2)) as Hr2.
    fold s1 in Hr1. fold s2 in Hr2.
    destruct (quiescent_outcome _ _ _ _ Hd Hr1 Hq1) as (Ht1 & Hs1 & Hf1).
    destruct (quiescent_outcome _ _ _ _ Hd Hr2 Hq2) as (Ht2 & Hs2 & Hf2).
    pose proof (Inv_reachable _ _ _ _ Hr1) as HI1.
    pose proof (Inv_reachable _ _ _ _ Hr2) as HI2.
    split_and!.
    + apply list_eq. intros i.
      destruct (manifest_keys res !! i) as [k|] eqn:Hk.
      * rewrite (Ht1 i k Hk), (Ht2 i k Hk). by rewrite Hfiles.
      * apply lookup_ge_None in Hk.
        rewrite !(proj2 (lookup_ge_None _ _)); [done|..].
        -- by rewrite (inv_length _ _ _ _ _ _ _ HI2).
        -- by rewrite (inv_length _ _ _ _ _ _ _ HI1).
    + by rewrite (emitted_diagnostics _ _ _ _ Hr1), (emitted_diagnostics _ _ _ _ Hr2).
    + apply map_eq. intros x.
      destruct (decide (Exists (λ k, selected k = true ∧ resolve k = x)
                          (manifest_keys res))) as [Hex|Hno].
      * apply Exists_exists in Hex as (k & Hin & Hsel & <-).
        rewrite (Hs1 k Hin Hsel), (Hs2 k Hin Hsel). by rewrite Hfiles.
      * rewrite Hf1, Hf2; [by rewrite Hfiles|..];
          intros k Hin Hsel Heq; apply Hno, Exists_exists; eauto.
Qed.

End hook_facts.

(** * More properties of the callback *)

Section more_facts.

Context {V : Type}.
Variable resolve : string → string.
Variable obfuscate : string → gmap string V → result string.

Implicit Types (s : @HookState V) (opts : gmap string V) (w : World)
  (res : BuildResult) (keys : list string) (t : TaskState) (i j : nat).

(** ** No file appears or disappears *)

Lemma files_kept_step fl0 i s s' :
  step obfuscate i s = Some s' → files_kept fl0 s → files_kept fl0 s'.
Proof.
  intros Hstep (Hw & Hr & Hp).
  destruct (step_unsettled _ _ _ _ Hstep) as (t & Ht & Hun).
  assert (i < length (tasks s)) as Hi by (by eapply lookup_lt_Some).
  assert (∀ p, is_Some (fs s !! p) → is_Some (fl0 !! p)) as Hthere.
  { intros p [f Hf]. specialize (Hw p). rewrite Hf in Hw.
    destruct (fl0 !! p); [by eexists | done]. }
  unfold files_kept.
  invert_step Hstep; simpl; split_and!; try done;
    try (intros j p c Hj; destruct (decide (i = j)) as [<-|Hne];
         [rewrite list_lookup_insert_eq in Hj by done; simplify_eq
         |rewrite list_lookup_insert_ne in Hj by done; eauto]);
    eauto.
  - apply Hthere.
    match goal with H : Fs.readFile _ _ = Ok _ |- _ =>
      unfold Fs.readFile in H; destruct (fs s !! p) eqn:?; by simplify_eq end.
  - intros x.
    match goal with H : Fs.writeFile _ ?q ?out = Ok _, H' : tasks s !! i = Some _ |- _ =>
      destruct (Hp _ _ _ H') as [f0 Hf0];
      pose proof (Hw q) as Hwq; rewrite Hf0 in Hwq;
      unfold Fs.writeFile in H; destruct (fs s !! q) as [f|] eqn:Hf; [|done];
      destruct (writable f) eqn:Hwf; simplify_eq
    end.
    destruct (decide (x = filePath)) as [->|Hne].
    + rewrite lookup_insert_eq, Hf0. simpl. simpl in Hwq. congruence.
    + by rewrite lookup_insert_ne.
Qed.

Lemma files_kept_rtc fl0 s s' :
  rtc (hook_step obfuscate) s s' → files_kept fl0 s → files_kept fl0 s'.
Proof.
  induction 1 as [|s1 s2 s3 [i Hi] _ IH]; [done|].
  intros Hk. apply IH. by eapply files_kept_step.
Qed.

Lemma files_kept_onEnd opts res w :
  files_kept (files w) (onEnd resolve opts res w).
Proof.
  destruct (onEnd_fs resolve opts res w) as (Hfs & _ & _).
  unfold files_kept. rewrite Hfs, onEnd_tasks. split_and!; [done|..].
  - intros i p c Hi. apply list_lookup_fmap_Some in Hi as (k & Hk & _).
    unfold spawn in Hk. by destruct (Str.endsWith k ".js").
  - intros i p c Hi. apply list_lookup_fmap_Some in Hi as (k & Hk & _).
    unfold spawn in Hk. by destruct (Str.endsWith k ".js").
Qed.

(** X1.  In every state of an invocation the files that exist are the ones
    that existed when the callback was called, each with the permission it
    had: a write only ever follows a read of the same path that succeeded,
    so the hook creates no file and removes none.  A path that no selected
    key of the manifest resolves to, in the manifest or not, holds the very
    file it held at the start. *)
Theorem files_never_created opts res w s :
  rtc (hook_step obfuscate) (onEnd resolve opts res w) s →
  dom (fs s) = dom (files w) ∧
  (∀ x, writable <$> fs s !! x = writable <$> files w !! x) ∧
  (∀ x, (∀ k, k ∈ manifest_keys res → selected k = true → resolve k ≠ x) →
        fs s !! x = files w !! x).
Proof.
  intros Hreach.
  destruct (files_kept_rtc _ _ _ Hreach (files_kept_onEnd opts res w)) as (Hw & _ & _).
  split_and!.
  - apply set_eq. intros x. rewrite !elem_of_dom. specialize (Hw x).
    destruct (fs s !! x), (files w !! x); simpl in Hw; try done;
      split; intros [? ?]; done.
  - done.
  - intros x Hx.
    eapply (untargeted_frame resolve obfuscate); [by apply Inv_reachable|].
    intros j k Hk. apply Hx, list_elem_of_lookup. eauto.
Qed.

(** ** A selected key whose file is missing *)

Lemma absent_at_step x i s s' :
  step obfuscate i s = Some s' → absent_at x s → absent_at x s'.
Proof.
  intros Hstep (Hx & Hr & Hw & Htr & Htw).
  destruct (step_unsettled _ _ _ _ Hstep) as (t & Ht & Hun).
  assert (i < length (tasks s)) as Hi by (by eapply lookup_lt_Some).
  assert (Fs.readFile (fs s) x = Throw (ENOENT x)) as Hread.
  { unfold Fs.readFile. by rewrite Hx. }
  unfold absent_at.
  invert_step Hstep; simpl; split_and!;
    try done;
    try (intros j c Hj; destruct (decide (i = j)) as [<-|Hne];
         [rewrite list_lookup_insert_eq in Hj by done; simplify_eq
         |rewrite list_lookup_insert_ne in Hj by done;
          first [by eapply Hr | by eapply Hw]]);
    try (intros j r Hin; apply elem_of_app in Hin as [Hin|Hin];
         [by eauto | apply list_elem_of_singleton in Hin; simplify_eq]);
    try (intros j d r Hin; apply elem_of_app in Hin as [Hin|Hin];
         [by eapply Htw | apply list_elem_of_singleton in Hin; simplify_eq]);
    try congruence;
    try (by eapply Hr); try (by eapply Hw).
  match goal with H : Fs.writeFile _ ?p _ = Ok _ |- _ =>
    rewrite (proj2 (writeFile_lookup _ _ _ _ H)); [done|] end.
  intros ->. by eapply Hw.
Qed.

Lemma absent_at_rtc x s s' :
  rtc (hook_step obfuscate) s s' → absent_at x s → absent_at x s'.
Proof.
  induction 1 as [|s1 s2 s3 [i Hi] _ IH]; [done|].
  intros Ha. apply IH. by eapply absent_at_step.
Qed.

Lemma absent_at_onEnd x opts res w :
  files w !! x = None → absent_at x (onEnd resolve opts res w).
Proof.
  intros Hx. destruct (onEnd_fs resolve opts res w) as (Hfs & Htr & _).
  unfold absent_at. rewrite Hfs, Htr, onEnd_tasks. split_and!; [done|..].
  - intros i c Hi. apply list_lookup_fmap_Some in Hi as (k & Hk & _).
    unfold spawn in Hk. by destruct (Str.endsWith k ".js").
  - intros i c Hi. apply list_lookup_fmap_Some in Hi as (k & Hk & _).
    unfold spawn in Hk. by destruct (Str.endsWith k ".js").
  - by intros i r ?%elem_of_nil.
  - by intros i d r ?%elem_of_nil.
Qed.

(** A task that failed keeps the promise of the callback from being
    fulfilled or pending. *)
Lemma failed_task_rejects opts keys fl0 con s i e :
  Inv resolve obfuscate opts keys fl0 con s →
  tasks s !! i = Some (TFailed e) → ∃ e0, settled s = Rejected e0.
Proof.
  intros HI Hi. pose proof (inv_settled _ _ _ _ _ _ _ HI) as Hj.
  destruct (settled s) as [| |e0]; simpl in Hj.
  - destruct Hj as [Hnf _]. by destruct (Hnf i e).
  - by pose proof (forallb_lookup _ _ _ _ Hj Hi).
  - by exists e0.
Qed.

(** X2.  A key ending in [.js] whose file is not there: the read of its
    task fails with [ENOENT], so the task never calls the transformation and
    never writes, under every schedule and whatever the other tasks do: the
    task either has not read yet or has failed with that one call, and the
    file is still not there.  Once the task has failed the promise of the
    callback is rejected. *)
Theorem missing_file_fails opts res w s i outputFile :
  rtc (hook_step obfuscate) (onEnd resolve opts res w) s →
  manifest_keys res !! i = Some outputFile →
  Str.endsWith outputFile ".js" = true →
  files w !! resolve outputFile = None →
  let filePath := resolve outputFile in
  fs s !! filePath = None ∧
  (tasks s !! i = Some (TReading filePath) ∧ events_of i (trace s) = [] ∨
   tasks s !! i = Some (TFailed (ENOENT filePath)) ∧
   events_of i (trace s) = [ReadFile filePath (Throw (ENOENT filePath))]) ∧
  (quiescent s = true →
   tasks s !! i = Some (TFailed (ENOENT filePath)) ∧ ∃ e, settled s = Rejected e).
Proof.
  intros Hreach Hk Hsel Hnone filePath.
  pose proof (Inv_reachable resolve obfuscate _ _ _ _ Hreach) as HI.
  destruct (absent_at_rtc _ _ _ Hreach (absent_at_onEnd _ opts res w Hnone))
    as (Hx & Hr & Hw & Htr & Htw).
  assert (i < length (tasks s)) as Hlt.
  { rewrite (inv_length _ _ _ _ _ _ _ HI). by eapply lookup_lt_Some. }
  destruct (lookup_lt_is_Some_2 _ i Hlt) as [t Ht].
  pose proof (inv_protocol _ _ _ _ _ _ _ HI _ _ _ Hk Ht) as Hp.
  unfold protocol, selected in Hp. rewrite Hsel in Hp. fold filePath in Hp.
  assert (∀ code, (i, ReadFile filePath (Ok code)) ∉ trace s) as Hnoread.
  { intros code Hin. by pose proof (Htr _ _ Hin). }
  assert (tasks s !! i = Some (TReading filePath) ∧ events_of i (trace s) = [] ∨
          tasks s !! i = Some (TFailed (ENOENT filePath)) ∧
          events_of i (trace s) = [ReadFile filePath (Throw (ENOENT filePath))]) as Hcase.
  { destruct t as [p|p c|p c| |e].
    - destruct Hp as [-> Hev]. by left.
    - destruct Hp as [-> _]. by destruct (Hr i c).
    - destruct Hp as [-> _]. by destruct (Hw i c).
    - destruct Hp as (code & out & Hev). destruct (Hnoread code).
      apply events_of_elem. rewrite Hev. apply list_elem_of_here.
    - destruct Hp as [Hev|[(code & Hev)|(code & out & Hev)]].
      + assert (@Throw string e = Throw (ENOENT filePath)) as [= ->]; [|by right].
        apply (Htr i), events_of_elem. rewrite Hev. apply list_elem_of_here.
      + destruct (Hnoread code).
        apply events_of_elem. rewrite Hev. apply list_elem_of_here.
      + destruct (Hnoread code).
        apply events_of_elem. rewrite Hev. apply list_elem_of_here. }
  split_and!; [done..|].
  intros Hq. destruct Hcase as [[Hi _]|[Hi _]].
  - by pose proof (forallb_lookup _ _ _ _ Hq Hi).
  - split; [done|]. by eapply failed_task_rejects.
Qed.

(** ** Nothing to do *)

(** Where every task has settled nothing can move. *)
Lemma quiescent_final s s' :
  quiescent s = true → rtc (hook_step obfuscate) s s' → s' = s.
Proof.
  intros Hq Hrtc. destruct Hrtc as [|s1 s2 s3 [i Hi] _]; [done|].
  apply step_unsettled in Hi as (t & Ht & Hun).
  pose proof (forallb_lookup _ _ _ _ Hq Ht). congruence.
Qed.

Lemma all_done_replicate (f : TaskState → bool) n :
  f TDone = true → forallb f (replicate n TDone) = true.
Proof. intros Hf. induction n as [|n IH]; simpl; [done|]. by rewrite Hf. Qed.

(** X3.  A manifest in which no key ends in [.js], the empty manifest
    included: the promise of the callback is fulfilled at once, no call is
    made, the files and the error channel are as they were, and nothing can
    happen afterwards. *)
Theorem nothing_selected_fulfils opts res w m :
  errors res = [] → metafile res = Some m →
  (∀ k, k ∈ Object_keys (outputs m) → Str.endsWith k ".js" = false) →
  let s0 := onEnd resolve opts res w in
  settled s0 = Fulfilled ∧ quiescent s0 = true ∧ trace s0 = [] ∧
  fs s0 = files w ∧ console s0 = stderr w ∧
  length (tasks s0) = length (outputs m) ∧
  ∀ s, rtc (hook_step obfuscate) s0 s → s = s0.
Proof.
  intros Herr Hmeta Hnone s0.
  assert (tasks s0 = replicate (length (outputs m)) TDone) as Hts.
  { unfold s0, onEnd. rewrite Herr, Hmeta. simpl.
    unfold Object_keys in *. revert Hnone.
    generalize (outputs m). intros l. induction l as [|[k o] l IH]; intros Hn; [done|].
    simpl. unfold spawn at 1. rewrite (Hn k) by (simpl; apply list_elem_of_here).
    f_equal. apply IH. intros k' Hk'. apply Hn. simpl. by apply list_elem_of_further. }
  assert (forallb is_done (tasks s0) = true) as Hdone.
  { rewrite Hts. by apply all_done_replicate. }
  assert (quiescent s0 = true) as Hq.
  { unfold quiescent. rewrite Hts. by apply all_done_replicate. }
  split_and!.
  - unfold s0 in *. unfold onEnd in *. rewrite Herr, Hmeta in *. simpl in *.
    by rewrite Hdone.
  - done.
  - apply onEnd_fs.
  - apply onEnd_fs.
  - unfold s0. rewrite onEnd_console. unfold diagnostics.
    rewrite Herr, Hmeta. by rewrite app_nil_r.
  - by rewrite Hts, length_replicate.
  - intros s. by apply quiescent_final.
Qed.

(** ** The promise of the callback *)

Lemma first_failure_snoc (tr : list (nat * @Event V)) i ev :
  first_failure (tr ++ [(i, ev)]) =
  match first_failure tr with Some e => Some e | None => failure_of ev end.
Proof.
  unfold first_failure. rewrite omap_app.
  destruct (omap _ tr) as [|e l]; simpl; [|done].
  by destruct (failure_of ev).
Qed.

(** What a step does: the task moves and records one call, which failed
    exactly when the task did. *)
Lemma step_advance i s s' :
  step obfuscate i s = Some s' →
  ∃ t' fl' ev, s' = advance s i t' fl' ev ∧
    ((∃ e, t' = TFailed e ∧ failure_of ev = Some e) ∨
     ((∀ e, t' ≠ TFailed e) ∧ failure_of ev = None)).
Proof.
  intros Hstep. invert_step Hstep; do 3 eexists; (split; [done|]); simpl; eauto.
Qed.

Lemma first_failure_step opts keys fl0 con i s s' :
  Inv resolve obfuscate opts keys fl0 con s →
  step obfuscate i s = Some s' →
  first_failure (trace s) =
    match settled s with Rejected e => Some e | _ => None end →
  first_failure (trace s') =
    match settled s' with Rejected e => Some e | _ => None end.
Proof.
  intros HI Hstep Hff.
  destruct (step_unsettled _ _ _ _ Hstep) as (t & Ht & Hun).
  destruct (step_advance _ _ _ Hstep) as (t' & fl' & ev & -> & Hcase).
  simpl. rewrite first_failure_snoc, Hff.
  pose proof (inv_settled _ _ _ _ _ _ _ HI) as Hj.
  destruct (settled s) as [| |e0]; simpl.
  - destruct Hcase as [(e & -> & ->)|[Hnf ->]]; [done|].
    destruct t'; try (by destruct (forallb is_done _)). by destruct (Hnf reason).
  - simpl in Hj. pose proof (forallb_lookup _ _ _ _ Hj Ht). by destruct t.
  - done.
Qed.

Lemma first_failure_from opts keys fl0 con s s' :
  Inv resolve obfuscate opts keys fl0 con s →
  rtc (hook_step obfuscate) s s' →
  first_failure (trace s) =
    match settled s with Rejected e => Some e | _ => None end →
  first_failure (trace s') =
    match settled s' with Rejected e => Some e | _ => None end.
Proof.
  intros HI Hrtc. induction Hrtc as [|s1 s2 s3 [i Hi] _ IH]; [done|].
  intros Hff. apply IH; [by eapply Inv_step | by eapply first_failure_step].
Qed.

Lemma first_failure_rtc opts res w s :
  rtc (hook_step obfuscate) (onEnd resolve opts res w) s →
  first_failure (trace s) =
    match settled s with Rejected e => Some e | _ => None end.
Proof.
  intros Hreach.
  eapply first_failure_from; [apply Inv_onEnd | done |].
  destruct (onEnd_fs resolve opts res w) as (_ & -> & _).
  rewrite onEnd_settled. by destruct (forallb is_done _).
Qed.

Lemma settled_none_failed_done (ts : list TaskState) :
  forallb is_settled ts = true →
  (∀ i e, ts !! i ≠ Some (TFailed e)) →
  forallb is_done ts = true.
Proof.
  intros Hs Hnf. apply forallb_forall. intros t Hin.
  rewrite forallb_forall in Hs. specialize (Hs t Hin).
  apply list_elem_of_In, list_elem_of_lookup in Hin as [i Hi].
  destruct t; try done. by destruct (Hnf i reason).
Qed.

Lemma all_done_quiescent s :
  forallb is_done (tasks s) = true → quiescent s = true.
Proof.
  intros Hd. unfold quiescent. apply forallb_forall. intros t Hin.
  rewrite forallb_forall in Hd. specialize (Hd t Hin). by destruct t.
Qed.

(** X4.  The promise the callback returns behaves as [Promise.all] does.
    It is rejected exactly when some call has failed, and its reason is the
    error of the first call that failed, whichever tasks fail later; it is
    fulfilled exactly when every task is done; once every task has settled
    it is no longer pending; and once it is fulfilled or rejected it never
    changes again, although the tasks that are left go on. *)
Theorem promise_settles_once opts res w s :
  rtc (hook_step obfuscate) (onEnd resolve opts res w) s →
  (∀ e, settled s = Rejected e ↔ first_failure (trace s) = Some e) ∧
  (settled s = Fulfilled ↔ forallb is_done (tasks s) = true) ∧
  (quiescent s = true → settled s ≠ Pending) ∧
  (settled s ≠ Pending →
   ∀ s', rtc (hook_step obfuscate) s s' → settled s' = settled s).
Proof.
  intros Hreach.
  pose proof (Inv_reachable resolve obfuscate _ _ _ _ Hreach) as HI.
  pose proof (first_failure_rtc _ _ _ _ Hreach) as Hff.
  pose proof (inv_settled _ _ _ _ _ _ _ HI) as Hj.
  split_and!.
  - intros e. rewrite Hff. destruct (settled s); split; congruence.
  - by eapply fulfilled_iff_all_done.
  - intros Hq Hp. rewrite Hp in Hj. destruct Hj as [Hnf Hnd].
    rewrite (settled_none_failed_done _ Hq Hnf) in Hnd. done.
  - intros Hnp s' Hrtc. destruct (settled s) as [| |e] eqn:Hs; [done|..].
    + simpl in Hj. apply all_done_quiescent in Hj.
      rewrite (quiescent_final _ _ Hj Hrtc). done.
    + by eapply rejected_stays.
Qed.

(** ** How long an invocation runs *)

Lemma budget_insert (ts : list TaskState) i t t' :
  ts !! i = Some t →
  sum_list (remaining <$> <[i := t']> ts) + remaining t =
  sum_list (remaining <$> ts) + remaining t'.
Proof.
  revert i. induction ts as [|t0 ts IH]; intros [|i] Hi; simplify_eq/=; [lia|].
  specialize (IH i Hi). lia.
Qed.

Lemma step_budget i s s' :
  step obfuscate i s = Some s' →
  length (trace s') = S (length (trace s)) ∧
  S (budget s') ≤ budget s ∧
  ((∀ e, tasks s' !! i ≠ Some (TFailed e)) → S (budget s') = budget s).
Proof.
  intros Hstep. unfold budget.
  invert_step Hstep; simpl;
    match goal with
    | H : tasks s !! i = Some ?t |- context [<[i := ?t']> (tasks s)] =>
        pose proof (budget_insert _ _ _ t' H) as Hb;
        pose proof (lookup_lt_Some _ _ _ H) as Hi
    end;
    rewrite length_app, list_lookup_insert_eq by done;
    simpl in *; (split_and!; [lia | lia | intros Hnf; try lia]);
    by destruct (Hnf e).
Qed.

Lemma nsteps_budget n s s' :
  nsteps (hook_step obfuscate) n s s' →
  length (trace s') = length (trace s) + n ∧
  budget s' + n ≤ budget s ∧
  ((∀ j e, tasks s' !! j ≠ Some (TFailed e)) → budget s' + n = budget s).
Proof.
  induction 1 as [s|n s s1 s' [i Hi] Hrest (IH1 & IH2 & IH3)]; [split_and!; lia|].
  destruct (step_budget _ _ _ Hi) as (Hlen & Hle & Heq).
  split_and!; [lia | lia |].
  intros Hnf. rewrite <- Heq, <- (IH3 Hnf); [lia|].
  intros e He. apply (Hnf i e).
  eapply settled_stays; [by eapply rtc_nsteps_2 | done..].
Qed.

Lemma budget_spawn keys :
  sum_list (remaining <$> (spawn resolve <$> keys)) = 3 * selected_count keys.
Proof.
  unfold selected_count. induction keys as [|k keys IH]; [done|].
  rewrite filter_cons, !fmap_cons.
  change (remaining (spawn resolve k) +
          sum_list (remaining <$> (spawn resolve <$> keys)) =
          3 * length (if decide (selected k = true)
                      then k :: filter (λ k, selected k = true) keys
                      else filter (λ k, selected k = true) keys)).
  rewrite IH. unfold spawn, selected.
  destruct (Str.endsWith k ".js"); simpl remaining.
  - rewrite decide_True by done. simpl length. lia.
  - rewrite decide_False by done. lia.
Qed.

Lemma budget_all_done s :
  forallb is_done (tasks s) = true →
  budget s = 0 ∧ ∀ j e, tasks s !! j ≠ Some (TFailed e).
Proof.
  intros Hd. split.
  - unfold budget. induction (tasks s) as [|t ts IH]; [done|].
    simpl in Hd. apply andb_prop in Hd as [Ht Hts]. specialize (IH Hts).
    rewrite fmap_cons.
    change (remaining t + sum_list (remaining <$> ts) = 0).
    rewrite IH. by destruct t.
  - intros j e Hj. by pose proof (forallb_lookup _ _ _ _ Hd Hj).
Qed.

(** A run is a sequence of steps, one for each call it recorded. *)
Lemma run_nsteps sched s :
  nsteps (hook_step obfuscate)
    (length (trace (run obfuscate sched s)) - length (trace s))
    s (run obfuscate sched s).
Proof.
  induction sched as [|i sched IH] using rev_ind.
  - simpl. rewrite Nat.sub_diag. constructor.
  - rewrite run_snoc.
    destruct (step obfuscate i (run obfuscate sched s)) as [s2|] eqn:Hs; simpl; [|done].
    destruct (nsteps_budget _ _ _ IH) as (Hlen & _ & _).
    destruct (step_budget _ _ _ Hs) as (Hlen2 & _ & _).
    replace (length (trace s2) - length (trace s))
      with (S (length (trace (run obfuscate sched s)) - length (trace s))) by lia.
    eapply nsteps_r; [done|]. by exists i.
Qed.

(** X5.  Every run of an invocation is short: each step records one
    call, and a task makes at most three (one read, one transformation, one
    write), so after [n] steps the trace has [n] calls and [n] is at most
    three times the number of keys ending in [.js]; no schedule runs for
    ever.  When the promise of the callback is fulfilled the pool has made
    exactly three calls for each such key. *)
Theorem steps_bounded opts res w n s :
  nsteps (hook_step obfuscate) n (onEnd resolve opts res w) s →
  length (trace s) = n ∧
  n ≤ 3 * selected_count (manifest_keys res) ∧
  (settled s = Fulfilled → n = 3 * selected_count (manifest_keys res)).
Proof.
  intros Hn. destruct (nsteps_budget _ _ _ Hn) as (Hlen & Hle & Heq).
  destruct (onEnd_fs resolve opts res w) as (_ & Htr & _).
  assert (budget (onEnd resolve opts res w) = 3 * selected_count (manifest_keys res))
    as Hb by (unfold budget; rewrite onEnd_tasks; apply budget_spawn).
  rewrite Htr in Hlen. rewrite Hb in Hle, Heq. split_and!; [done | lia |].
  intros Hf.
  pose proof (Inv_reachable resolve obfuscate _ _ _ _ (rtc_nsteps_2 _ _ _ Hn)) as HI.
  apply (fulfilled_iff_all_done _ _ _ _ _ _ _ HI) in Hf.
  destruct (budget_all_done _ Hf) as [H0 Hnf]. specialize (Heq Hnf). lia.
Qed.

(** ** What reaches the error channel *)

(** X6.  The only thing the callback ever writes to the error channel is
    the one fixed line, and only for a build with no error and no manifest:
    in every state of every invocation the lines added are that line in this
    case and none otherwise.  A task that fails logs nothing; its error only
    rejects the promise. *)
Theorem only_diagnostic opts res w s :
  rtc (hook_step obfuscate) (onEnd resolve opts res w) s →
  emitted w s =
    match errors res, metafile res with
    | [], None => ["Metafile is required for the obfuscator plugin to work."]
    | _, _ => []
    end ∧
  console s = stderr w ++ emitted w s ∧
  ∀ i e, tasks s !! i = Some (TFailed e) →
    is_Some (metafile res) ∧ emitted w s = [] ∧ ∃ e0, settled s = Rejected e0.
Proof.
  intros Hreach.
  pose proof (Inv_reachable resolve obfuscate _ _ _ _ Hreach) as HI.
  pose proof (emitted_diagnostics resolve obfuscate _ _ _ _ Hreach) as Hem.
  split_and!.
  - done.
  - rewrite Hem. apply (inv_console _ _ _ _ _ _ _ HI).
  - intros i e Hi.
    assert (i < length (manifest_keys res)) as Hlt.
    { rewrite <- (inv_length _ _ _ _ _ _ _ HI). by eapply lookup_lt_Some. }
    rewrite Hem. unfold diagnostics. unfold manifest_keys in Hlt.
    destruct (errors res); [|simpl in Hlt; lia].
    destruct (metafile res); [|simpl in Hlt; lia].
    split_and!; [by eexists | done | by eapply failed_task_rejects].
Qed.

(** ** Each task works on what its file held at the start *)

Lemma reads_original_step opts keys fl0 con i s s' :
  Inv resolve obfuscate opts keys fl0 con s →
  distinct_targets resolve keys →
  step obfuscate i s = Some s' →
  reads_original resolve fl0 keys s → reads_original resolve fl0 keys s'.
Proof.
  intros HI Hd Hstep Hro j k Hk Hsel.
  destruct (Hro j k Hk Hsel) as [Hfs Hev].
  destruct (decide (i = j)) as [<-|Hne].
  - destruct (step_unsettled _ _ _ _ Hstep) as (t & Ht & Hun).
    assert (i < length (tasks s)) as Hi by (by eapply lookup_lt_Some).
    assert (∀ p, (t = TReading p ∨ (∃ c, t = TRead p c) ∨ (∃ c, t = TWriting p c)) →
                 p = resolve k) as Hpath.
    { intros p Hp. by eapply (protocol_path resolve obfuscate). }
    invert_step Hstep; simpl; rewrite events_of_snoc, decide_True by done;
      rewrite list_lookup_insert_eq by done;
      (split; [done|]);
      intros p r Hin; apply elem_of_app in Hin as [Hin|Hin];
      try (by eapply Hev);
      apply list_elem_of_singleton in Hin; simplify_eq;
      match goal with H : Fs.readFile _ ?q = _ |- _ =>
        rewrite <- H; rewrite (Hpath q) in * by eauto;
        unfold Fs.readFile; by rewrite (Hfs eq_refl)
      end.
  - rewrite (step_others _ _ _ _ _ Hstep Hne).
    rewrite (step_fs_distinct resolve obfuscate _ _ _ _ _ _ _ _ _ HI Hd Hstep Hne Hk Hsel).
    split; [done|].
    assert (events_of j (trace s') = events_of j (trace s)) as ->; [|done].
    invert_step Hstep; simpl; rewrite events_of_snoc, decide_False by done;
      by rewrite app_nil_r.
Qed.

Lemma reads_original_rtc opts keys fl0 con s s' :
  Inv resolve obfuscate opts keys fl0 con s →
  distinct_targets resolve keys →
  rtc (hook_step obfuscate) s s' →
  reads_original resolve fl0 keys s → reads_original resolve fl0 keys s'.
Proof.
  intros HI Hd Hrtc. induction Hrtc as [|s1 s2 s3 [i Hi] _ IH]; [done|].
  intros Hro. apply IH; [by eapply Inv_step | by eapply reads_original_step].
Qed.

Lemma reads_original_onEnd opts res w :
  reads_original resolve (files w) (manifest_keys res) (onEnd resolve opts res w).
Proof.
  intros i k Hk Hsel. destruct (onEnd_fs resolve opts res w) as (-> & -> & _).
  split; [done|]. by intros p r ?%elem_of_nil.
Qed.

(** X7.  When the keys ending in [.js] name different files, a task never
    sees what another task wrote: every read it makes is on the resolved
    path of its key and returns what the file held when the callback was
    called.  So a task that is done has read the original content of its
    file, passed exactly that to the transformation, and written the result,
    which the file then holds, in every state and under every schedule. *)
Theorem task_transforms_original opts res w s i outputFile :
  distinct_targets resolve (manifest_keys res) →
  rtc (hook_step obfuscate) (onEnd resolve opts res w) s →
  manifest_keys res !! i = Some outputFile →
  Str.endsWith outputFile ".js" = true →
  let filePath := resolve outputFile in
  (∀ p r, (i, ReadFile p r) ∈ trace s →
     p = filePath ∧ r = Fs.readFile (files w) filePath) ∧
  (tasks s !! i = Some TDone →
   ∃ f out,
     files w !! filePath = Some f ∧
     obfuscate (content f) opts = Ok out ∧
     events_of i (trace s) =
       [ReadFile filePath (Ok (content f)); Obfuscate (content f) opts (Ok out);
        WriteFile filePath out None] ∧
     fs s !! filePath = Some {| content := out; writable := true |}).
Proof.
  intros Hd Hreach Hk Hsel filePath.
  pose proof (Inv_reachable resolve obfuscate _ _ _ _ Hreach) as HI.
  destruct (reads_original_rtc _ _ _ _ _ _ (Inv_onEnd resolve obfuscate opts res w)
              Hd Hreach (reads_original_onEnd opts res w) i outputFile Hk Hsel)
    as [_ Hev].
  split.
  - intros p r Hin. pose proof (elem_of_events_of _ _ _ Hin) as Hin'.
    split; [|by eapply Hev].
    destruct (trace_origin resolve obfuscate _ _ _ _ _ _ _ HI Hin)
      as (k & Hk' & _ & Hp & _).
    rewrite Hk in Hk'. injection Hk' as <-. by apply Hp.
  - intros Hdone.
    pose proof (inv_protocol _ _ _ _ _ _ _ HI _ _ _ Hk Hdone) as Hp.
    unfold protocol, selected in Hp. rewrite Hsel in Hp. fold filePath in Hp.
    destruct Hp as (code & out & Hevs).
    assert (Ok code = Fs.readFile (files w) filePath) as Hread.
    { apply (Hev filePath). rewrite Hevs. apply list_elem_of_here. }
    unfold Fs.readFile in Hread.
    destruct (files w !! filePath) as [f|] eqn:Hf; [|done].
    injection Hread as ->.
    assert (obfuscate (content f) opts = Ok out) as Hobf.
    { assert ((i, Obfuscate (content f) opts (Ok out)) ∈ trace s) as Hin.
      { apply events_of_elem. rewrite Hevs.
        apply list_elem_of_further, list_elem_of_here. }
      destruct (obfuscate_calls resolve obfuscate _ _ _ _ Hreach) as [_ Hcalls].
      by destruct (Hcalls _ _ _ _ Hin) as [_ <-]. }
    destruct (written_kept_rtc resolve obfuscate _ _ _ _ _ _
                (Inv_onEnd resolve obfuscate opts res w) Hd Hreach
                (written_kept_onEnd resolve opts res w) i outputFile Hk Hsel Hdone)
      as (out' & Hlast & Hfs).
    rewrite Hevs in Hlast. simpl in Hlast. injection Hlast as <-.
    by exists f, out.
Qed.

(** ** Calling the callback again *)

(** X8.  The callback leaves no mark on what it has transformed.  When the
    keys ending in [.js] name different files and a first call has run to
    its end on a file that is there and may be written, a second call on the
    same build outcome, run to its end on the files the first one left,
    transforms the file again: it ends holding the transformation of the
    transformation of its first content. *)
Theorem second_call_transforms_again opts res w s1 s2 i outputFile f out1 out2 :
  distinct_targets resolve (manifest_keys res) →
  rtc (hook_step obfuscate) (onEnd resolve opts res w) s1 →
  quiescent s1 = true →
  rtc (hook_step obfuscate) (onEnd resolve opts res (world_of s1)) s2 →
  quiescent s2 = true →
  manifest_keys res !! i = Some outputFile →
  Str.endsWith outputFile ".js" = true →
  files w !! resolve outputFile = Some f → writable f = true →
  obfuscate (content f) opts = Ok out1 →
  obfuscate out1 opts = Ok out2 →
  fs s1 !! resolve outputFile = Some {| content := out1; writable := true |} ∧
  tasks s2 !! i = Some TDone ∧
  fs s2 !! resolve outputFile = Some {| content := out2; writable := true |}.
Proof.
  intros Hd Hr1 Hq1 Hr2 Hq2 Hk Hsel Hf Hw Ho1 Ho2.
  assert (outputFile ∈ manifest_keys res) as Hin
    by (apply list_elem_of_lookup; eauto).
  destruct (quiescent_outcome resolve obfuscate _ _ _ _ Hd Hr1 Hq1) as (_ & Hfs1 & _).
  destruct (quiescent_outcome resolve obfuscate _ _ _ _ Hd Hr2 Hq2) as (Hts2 & Hfs2 & _).
  assert (fs s1 !! resolve outputFile = Some {| content := out1; writable := true |})
    as H1.
  { rewrite (Hfs1 _ Hin Hsel), Hf. by rewrite (outcome_done obfuscate _ _ _ _ Hw Ho1). }
  split; [done|].
  rewrite (Hts2 i _ Hk), (Hfs2 _ Hin Hsel). unfold selected. rewrite Hsel.
  simpl files. rewrite H1.
  by rewrite (outcome_done obfuscate opts (resolve outputFile)
                {| content := out1; writable := true |} out2 eq_refl Ho2).
Qed.

(** ** A file that cannot be processed *)

Lemma outcome_throws opts q f e :
  obfuscate (content f) opts = Throw e →
  outcome obfuscate opts q (Some f) = (TFailed e, Some f).
Proof.
  intros Hobf. unfold outcome. simpl. unfold local_step at 3. simpl.
  unfold local_step at 2. simpl. by rewrite Hobf.
Qed.

Lemma outcome_refused opts q f out :
  obfuscate (content f) opts = Ok out → writable f = false →
  outcome obfuscate opts q (Some f) = (TFailed (EACCES q), Some f).
Proof.
  intros Hobf Hw. unfold outcome. simpl. unfold local_step at 3. simpl.
  unfold local_step at 2. simpl. rewrite Hobf.
  unfold local_step. simpl. by rewrite Hw.
Qed.

(** X9.  When the keys ending in [.js] name different files and all tasks
    have settled: a file whose content the transformation rejects, or that
    may not be written, is exactly as it was (the error came before any
    write), its task has failed with that error, and the promise of the
    callback is rejected.  The failure stops no other task: every other
    selected file that is there, may be written and is accepted by the
    transformation has been transformed all the same. *)
Theorem failed_file_untouched opts res w s i outputFile f e :
  distinct_targets resolve (manifest_keys res) →
  rtc (hook_step obfuscate) (onEnd resolve opts res w) s →
  quiescent s = true →
  manifest_keys res !! i = Some outputFile →
  Str.endsWith outputFile ".js" = true →
  files w !! resolve outputFile = Some f →
  (obfuscate (content f) opts = Throw e ∨
   (∃ out, obfuscate (content f) opts = Ok out) ∧ writable f = false ∧
   e = EACCES (resolve outputFile)) →
  tasks s !! i = Some (TFailed e) ∧
  fs s !! resolve outputFile = Some f ∧
  (∃ e0, settled s = Rejected e0) ∧
  ∀ j k f' out,
    manifest_keys res !! j = Some k → Str.endsWith k ".js" = true →
    files w !! resolve k = Some f' → writable f' = true →
    obfuscate (content f') opts = Ok out →
    tasks s !! j = Some TDone ∧
    fs s !! resolve k = Some {| content := out; writable := true |}.
Proof.
  intros Hd Hreach Hq Hk Hsel Hf Hcase.
  pose proof (Inv_reachable resolve obfuscate _ _ _ _ Hreach) as HI.
  destruct (quiescent_outcome resolve obfuscate _ _ _ _ Hd Hreach Hq) as (Hts & Hfs & _).
  assert (outcome obfuscate opts (resolve outputFile) (Some f) = (TFailed e, Some f))
    as Hout.
  { destruct Hcase as [Hthrow|([out Hobf] & Hw & ->)].
    - by apply outcome_throws.
    - by eapply outcome_refused. }
  assert (outputFile ∈ manifest_keys res) as Hin
    by (apply list_elem_of_lookup; eauto).
  assert (tasks s !! i = Some (TFailed e)) as Hfailed.
  { rewrite (Hts i _ Hk). unfold selected. by rewrite Hsel, Hf, Hout. }
  split_and!.
  - done.
  - by rewrite (Hfs _ Hin Hsel), Hf, Hout.
  - by eapply failed_task_rejects.
  - intros j k f' out Hk' Hsel' Hf' Hw' Hobf'.
    assert (k ∈ manifest_keys res) as Hin'
      by (apply list_elem_of_lookup; eauto).
    rewrite (Hts j _ Hk'), (Hfs _ Hin' Hsel'). unfold selected.
    rewrite Hsel', Hf'. by rewrite (outcome_done obfuscate _ _ _ _ Hw' Hobf').
Qed.

End more_facts.

(** * The theorems on the concrete builds *)

Module Witness.
Import Example.

(** A failed build leaves everything alone. *)
Lemma build_errors_skip_witness :
  errors failed_build ≠ [] ∧
  settled (onEnd resolve mangled failed_build script_and_style_world) = Fulfilled ∧
  trace (onEnd resolve mangled failed_build script_and_style_world) = [] ∧
  emitted script_and_style_world
    (onEnd resolve mangled failed_build script_and_style_world) = [].
Proof.
  assert (errors failed_build ≠ []) as H by done.
  split; [exact H|].
  pose proof (build_errors_skip resolve obfuscate mangled failed_build
                script_and_style_world H) as (_ & Htr & _ & _ & Hem & Hs & _).
  by split_and!.
Defined.

(** A build without manifest adds the one line to the error channel. *)
Lemma missing_metafile_logs_witness :
  errors no_metafile = [] ∧ metafile no_metafile = None ∧
  console (onEnd resolve mangled no_metafile both_present) =
    ["an earlier line"; "Metafile is required for the obfuscator plugin to work."] ∧
  settled (onEnd resolve mangled no_metafile both_present) = Fulfilled.
Proof.
  split; [reflexivity|]. split; [reflexivity|].
  pose proof (missing_metafile_logs resolve obfuscate mangled no_metafile
                both_present eq_refl eq_refl) as (Hc & _ & _ & _ & _ & Hs & _).
  by split.
Defined.

Lemma distinct_script_and_style :
  distinct_targets resolve (manifest_keys script_and_style).
Proof.
  intros [|[|i]] [|[|j]] k k' Hk Hk' Hsel Hsel' Heq; simpl in Hk, Hk'; simplify_eq;
    try done; by vm_compute in Hsel, Hsel'.
Defined.

(** The script of [script_and_style] is read, transformed and written. *)
Lemma selected_files_processed_witness :
  rtc (hook_step obfuscate)
    (onEnd resolve mangled script_and_style script_and_style_world) script_done ∧
  Str.endsWith "script.js" ".js" = true ∧
  settled script_done = Fulfilled ∧
  (∃ code out,
     events_of 0 (trace script_done) =
       [ReadFile (resolve "script.js") (Ok code); Obfuscate code mangled (Ok out);
        WriteFile (resolve "script.js") out None] ∧
     obfuscate code mangled = Ok out) ∧
  fs script_done !! resolve "script.js" =
    Some {| content := "var _0x1=[function test() {}];"; writable := true |}.
Proof.
  assert (settled script_done = Fulfilled) as Hs by (by vm_compute).
  split; [apply run_reachable|]. split; [reflexivity|]. split; [exact Hs|].
  destruct (selected_files_processed resolve obfuscate mangled script_and_style
              script_and_style_world _ script_done 0 "script.js"
              eq_refl eq_refl (run_reachable _ _ _) eq_refl eq_refl)
    as (_ & _ & _ & Hful & Hdone & Hfinal).
  split.
  - destruct (Hdone (Hful Hs)) as (code & out & _ & _ & _ & Hev & _ & _ & Hobf & _).
    by exists code, out.
  - by apply (Hfinal distinct_script_and_style eq_refl (file "function test() {}")).
Defined.

(** The stylesheet next to it is left as it was. *)
Lemma unselected_untouched_witness :
  manifest_keys script_and_style !! 1 = Some "style.css" ∧
  Str.endsWith "style.css" ".js" = false ∧
  tasks script_done !! 1 = Some TDone ∧
  events_of 1 (trace script_done) = [] ∧
  fs script_done !! resolve "style.css" =
    files script_and_style_world !! resolve "style.css".
Proof.
  split; [reflexivity|]. split; [reflexivity|].
  destruct (unselected_untouched resolve obfuscate mangled script_and_style
              script_and_style_world script_done 1 "style.css"
              (run_reachable _ _ _) eq_refl eq_refl) as (Ht & Hev & _ & Hframe).
  split; [exact Ht|]. split; [exact Hev|].
  apply Hframe.
  intros [|[|j]] k Hk Hsel; simpl in Hk; simplify_eq; by vm_compute.
Defined.

Lemma distinct_two_scripts : distinct_targets resolve (manifest_keys two_scripts).
Proof.
  intros [|[|i]] [|[|j]] k k' Hk Hk' _ _ Heq; simpl in Hk, Hk'; simplify_eq;
    try done; by vm_compute in Heq.
Defined.

(** A read that fails, a transformation that throws and a write that is
    refused each fail the task and reject the callback; the file of the
    task that was done before the failure keeps the transformed text. *)
Lemma task_failure_rejects_witness :
  (tasks first_done !! 1 = Some (TReading "/w/input2.js") ∧
   throws obfuscate first_done (TReading "/w/input2.js") (ENOENT "/w/input2.js") ∧
   tasks (run obfuscate [1] first_done) !! 1 = Some (TFailed (ENOENT "/w/input2.js")) ∧
   settled (run obfuscate [1] first_done) = Rejected (ENOENT "/w/input2.js") ∧
   tasks (run obfuscate [1] first_done) !! 0 = Some TDone ∧
   ∃ code out,
     obfuscate code mangled = Ok out ∧
     fs (run obfuscate [1] first_done) !! "/w/input1.js" =
       Some {| content := out; writable := true |}) ∧
  (throws obfuscate source_read (TRead "/w/out.js" "function hello() {")
     (Thrown "Unexpected token") ∧
   tasks (run obfuscate [0] source_read) !! 0 =
     Some (TFailed (Thrown "Unexpected token")) ∧
   settled (run obfuscate [0] source_read) = Rejected (Thrown "Unexpected token")) ∧
  (throws obfuscate write_pending
     (TWriting "/w/out.js" "var _0x1=[function test() {}];") (EACCES "/w/out.js") ∧
   tasks (run obfuscate [0] write_pending) !! 0 = Some (TFailed (EACCES "/w/out.js")) ∧
   settled (run obfuscate [0] write_pending) = Rejected (EACCES "/w/out.js") ∧
   fs (run obfuscate [0] write_pending) = fs write_pending).
Proof.
  split; [|split].
  - assert (throws obfuscate first_done (TReading "/w/input2.js")
              (ENOENT "/w/input2.js")) as Hthrow by reflexivity.
    split; [reflexivity|]. split; [exact Hthrow|].
    destruct (task_failure_rejects resolve obfuscate mangled two_scripts
                second_missing first_done 1 _ _ (run_reachable _ _ _) eq_refl Hthrow)
      as (s' & Hstep & Hfail & _ & Hrej & _ & _ & Hlater).
    change (run obfuscate [1] first_done)
      with (default first_done (step obfuscate 1 first_done)).
    rewrite Hstep. simpl default.
    split; [exact Hfail|]. split; [by apply Hrej|].
    destruct (Hlater s' (rtc_refl _ _)) as (_ & _ & Hdone & Hkept).
    split; [by apply Hdone|].
    destruct (Hkept distinct_two_scripts 0 "input1.js" eq_refl eq_refl eq_refl)
      as (code & out & Hcode & _ & Hfile).
    by exists code, out.
  - assert (throws obfuscate source_read (TRead "/w/out.js" "function hello() {")
              (Thrown "Unexpected token")) as Hthrow by reflexivity.
    split; [exact Hthrow|].
    destruct (task_failure_rejects resolve obfuscate mangled one_output
                unparsable source_read 0 _ _ (run_reachable _ _ _) eq_refl Hthrow)
      as (s' & Hstep & Hfail & _ & Hrej & _).
    change (run obfuscate [0] source_read)
      with (default source_read (step obfuscate 0 source_read)).
    rewrite Hstep. simpl default.
    split; [exact Hfail|]. by apply Hrej.
  - assert (throws obfuscate write_pending
              (TWriting "/w/out.js" "var _0x1=[function test() {}];")
              (EACCES "/w/out.js")) as Hthrow by reflexivity.
    split; [exact Hthrow|].
    destruct (task_failure_rejects resolve obfuscate mangled one_output
                read_only write_pending 0 _ _ (run_reachable _ _ _) eq_refl Hthrow)
      as (s' & Hstep & Hfail & _ & Hrej & _ & Hfs & _).
    change (run obfuscate [0] write_pending)
      with (default write_pending (step obfuscate 0 write_pending)).
    rewrite Hstep. simpl default.
    split; [exact Hfail|]. split; [by apply Hrej|exact Hfs].
Defined.

(** The other two ways a task fails: the transformation throws, the write
    is refused.  Either way the error is the reason of the rejection and the
    file is as it was. *)
Example transformation_throws :
  let s := run obfuscate [0; 0; 0] (onEnd resolve mangled one_output unparsable) in
  tasks s = [TFailed (Thrown "Unexpected token")] ∧
  settled s = Rejected (Thrown "Unexpected token") ∧
  fs s = files unparsable.
Proof. by vm_compute. Qed.

Example write_refused :
  let s := run obfuscate [0; 0; 0] (onEnd resolve mangled one_output read_only) in
  tasks s = [TFailed (EACCES "/w/out.js")] ∧
  settled s = Rejected (EACCES "/w/out.js") ∧
  fs s = files read_only.
Proof. by vm_compute. Qed.

(** The options of the tests reach the transformation, key by key: the
    call on the script is made, and it carries them. *)
Lemma options_forwarded_witness :
  onEnd resolve mangled ∈ registered (obfuscatorPlugin resolve (Some mangled)) ∧
  trace (run obfuscate [0; 0]
           (onEnd resolve mangled script_and_style script_and_style_world)) =
    [(0, ReadFile "/w/script.js" (Ok "function test() {}"));
     (0, Obfuscate "function test() {}" mangled
           (Ok "var _0x1=[function test() {}];"))] ∧
  (∃ code out, (0, Obfuscate code mangled (Ok out)) ∈ trace script_done) ∧
  options script_done = mangled ∧
  ∀ i code o r, (i, Obfuscate code o r) ∈ trace script_done →
    o !! "renameGlobals" = Some (VBool true) ∧
    o !! "identifierNamesGenerator" = Some (VStr "mangled").
Proof.
  assert (onEnd resolve mangled ∈ registered (obfuscatorPlugin resolve (Some mangled)))
    as Hcb by (by apply list_elem_of_singleton).
  split; [exact Hcb|].
  destruct (options_forwarded resolve obfuscate mangled _ script_and_style
              script_and_style_world script_done Hcb (run_reachable _ _ _))
    as (Hfirst & _ & Hmade & Ho & Hev & _).
  split; [exact (Hfirst 0 "script.js" (file "function test() {}")
                   eq_refl eq_refl eq_refl)|].
  split; [apply (Hmade 0 "script.js" TDone eq_refl eq_refl); by left|].
  split; [exact Ho|].
  intros i code o r Hin. destruct (Hev i code o r Hin) as (-> & _ & _).
  by split.
Defined.


(** Of the six extensions only [.js] starts a task. *)
Lemma selection_is_js_suffix_witness :
  tasks (onEnd resolve mangled mixed_extensions script_and_style_world) =
    [TDone; TDone; TDone; TDone; TDone; TReading "/w/f.js"] ∧
  Str.endsWith "a.mjs" ".js" = false ∧
  Str.endsWith "c.JS" ".js" = false ∧
  spawn resolve "f.js" = TReading (resolve "f.js").
Proof.
  split; [reflexivity|].
  destruct (selection_is_js_suffix (V:=Value) resolve obfuscate) as (_ & Hjs & Hother).
  split; [|split].
  - apply (Hother "a" ".mjs"), list_elem_of_In. simpl. auto.
  - apply (Hother "c" ".JS"), list_elem_of_In. simpl. auto.
  - apply (Hjs "f").
Defined.

(** An empty output is rewritten empty. *)
Lemma empty_file_stays_empty_witness :
  obfuscate EmptyString mangled = Ok EmptyString ∧
  content <$> files empty_world !! resolve "out.js" = Some EmptyString ∧
  tasks (run obfuscate [0; 0; 0] (onEnd resolve mangled empty_output empty_world)) !! 0 =
    Some TDone ∧
  content <$>
    fs (run obfuscate [0; 0; 0] (onEnd resolve mangled empty_output empty_world))
      !! resolve "out.js" = Some EmptyString.
Proof.
  split; [reflexivity|]. split; [reflexivity|]. split; [reflexivity|].
  apply (empty_file_stays_empty resolve obfuscate mangled empty_output empty_world
           _ 0 "out.js" eq_refl (run_reachable _ _ _) eq_refl eq_refl eq_refl).
Defined.

(** A host with two settled calls behind it and a host with none, on the
    same files: the new call goes the same way on both. *)
Lemma invocations_agree_witness :
  host_idle settled_host = true ∧
  files (host_world settled_host) = files transformed_once ∧
  own_picks 2 [(2, 0); (0, 0); (2, 1); (1, 0); (2, 0); (2, 0); (2, 1); (2, 1)] =
    own_picks 0 [(0, 0); (0, 1); (0, 0); (0, 0); (0, 1); (0, 1)] ∧
  files (host_world
           (host_picks obfuscate
              [(2, 0); (0, 0); (2, 1); (1, 0); (2, 0); (2, 0); (2, 1); (2, 1)]
              (host_call (onEnd resolve mangled) two_scripts settled_host))) =
  files (host_world
           (host_picks obfuscate [(0, 0); (0, 1); (0, 0); (0, 0); (0, 1); (0, 1)]
              (host_call (onEnd resolve mangled) two_scripts
                 (fresh_host transformed_once)))).
Proof.
  assert (host_idle settled_host = true) as Hidle by (by vm_compute).
  assert (files (host_world settled_host) = files transformed_once) as Hfiles
    by (by vm_compute).
  split; [exact Hidle|]. split; [exact Hfiles|]. split; [reflexivity|].
  destruct (invocations_agree resolve obfuscate mangled (onEnd resolve mangled)
              two_scripts settled_host (fresh_host transformed_once)
              ltac:(by apply list_elem_of_singleton) Hidle eq_refl Hfiles)
    as (_ & Hsame & _).
  destruct (Hsame [(2, 0); (0, 0); (2, 1); (1, 0); (2, 0); (2, 0); (2, 1); (2, 1)]
              [(0, 0); (0, 1); (0, 0); (0, 0); (0, 1); (0, 1)] eq_refl)
    as (s1 & s2 & _ & _ & _ & _ & _ & _ & Hend).
  exact Hend.
Defined.

(** C8 needs the earlier calls to have settled.  On [stale_host] an earlier
    call was rejected and has returned while one of its tasks still waits
    for its read of [/w/input1.js].  The callback is then handed
    [one_script], on the very files a host without history has, and the
    task of the new call is picked three times on both hosts.  On the
    stale host the task left over reads, transforms and writes the file
    first, so the new call reads what that task wrote and transforms it a
    second time.  Same build outcome, options, files and transformation,
    both new calls fulfilled, all tasks settled, and the file ends with
    different contents. *)
Lemma stale_task_interferes :
  let callback := onEnd resolve mangled in
  let after_stale :=
    host_picks obfuscate [(0, 0); (0, 0); (0, 0); (1, 0); (1, 0); (1, 0)]
      (host_call callback one_script stale_host) in
  let after_fresh :=
    host_picks obfuscate [(0, 0); (0, 0); (0, 0)]
      (host_call callback one_script (fresh_host second_missing)) in
  settled <$> host_calls stale_host !! 0 = Some (Rejected (ENOENT "/w/input2.js")) ∧
  tasks <$> host_calls stale_host !! 0 =
    Some [TReading "/w/input1.js"; TFailed (ENOENT "/w/input2.js")] ∧
  host_world stale_host = second_missing ∧
  own_picks 1 [(0, 0); (0, 0); (0, 0); (1, 0); (1, 0); (1, 0)] =
    own_picks 0 [(0, 0); (0, 0); (0, 0)] ∧
  settled <$> host_calls after_stale !! 1 = Some Fulfilled ∧
  settled <$> host_calls after_fresh !! 0 = Some Fulfilled ∧
  host_idle after_stale = true ∧ host_idle after_fresh = true ∧
  content <$> files (host_world after_stale) !! "/w/input1.js" =
    Some "var _0x1=[var _0x1=[function greet() {}];];" ∧
  content <$> files (host_world after_fresh) !! "/w/input1.js" =
    Some "var _0x1=[function greet() {}];" ∧
  files (host_world after_stale) ≠ files (host_world after_fresh).
Proof.
  split_and!; try reflexivity.
  intros Heq. apply (f_equal (λ m, content <$> m !! "/w/input1.js")) in Heq.
  by vm_compute in Heq.
Qed.

End Witness.

(** * The further properties on the concrete builds *)

Module WitnessMore.
Import Example ExampleMore.

Lemma distinct_scripts : distinct_targets resolve (manifest_keys two_scripts).
Proof.
  intros [|[|i]] [|[|j]] k k' Hk Hk' _ _ Heq; simpl in Hk, Hk'; simplify_eq;
    try done; by vm_compute in Heq.
Defined.

(** The build of a script and a stylesheet: the same two files before and
    after. *)
Lemma files_never_created_witness :
  rtc (hook_step obfuscate)
    (onEnd resolve mangled script_and_style script_and_style_world) script_done ∧
  dom (fs script_done) = dom (files script_and_style_world) ∧
  fs script_done !! "/w/style.css" = files script_and_style_world !! "/w/style.css".
Proof.
  split; [apply run_reachable|].
  destruct (files_never_created resolve obfuscate mangled script_and_style
              script_and_style_world script_done (run_reachable _ _ _))
    as (Hdom & _ & Hframe).
  split; [exact Hdom|]. apply Hframe.
  intros k Hin Hsel. apply list_elem_of_In in Hin. simpl in Hin.
  destruct Hin as [<-|[<-|[]]]; by vm_compute.
Defined.

(** The second script is not on disk: its task fails on the read. *)
Lemma missing_file_fails_witness :
  manifest_keys two_scripts !! 1 = Some "input2.js" ∧
  Str.endsWith "input2.js" ".js" = true ∧
  files second_missing !! resolve "input2.js" = None ∧
  quiescent second_missing_done = true ∧
  tasks second_missing_done !! 1 = Some (TFailed (ENOENT (resolve "input2.js"))) ∧
  fs second_missing_done !! resolve "input2.js" = None.
Proof.
  split; [reflexivity|]. split; [reflexivity|]. split; [reflexivity|].
  split; [reflexivity|].
  destruct (missing_file_fails resolve obfuscate mangled two_scripts second_missing
              second_missing_done 1 "input2.js" (run_reachable _ _ _)
              eq_refl eq_refl eq_refl) as (Hnone & _ & Hq).
  split; [|exact Hnone]. by destruct (Hq eq_refl).
Defined.

(** A build of a stylesheet and its map: fulfilled at once. *)
Lemma nothing_selected_fulfils_witness :
  errors styles_only = [] ∧
  settled (onEnd resolve mangled styles_only script_and_style_world) = Fulfilled ∧
  trace (onEnd resolve mangled styles_only script_and_style_world) = [] ∧
  settled (onEnd resolve mangled no_outputs script_and_style_world) = Fulfilled.
Proof.
  split; [reflexivity|].
  destruct (nothing_selected_fulfils resolve obfuscate mangled styles_only
              script_and_style_world _ eq_refl eq_refl) as (Hs & _ & Htr & _).
  { intros k Hin. apply list_elem_of_In in Hin. simpl in Hin.
    destruct Hin as [<-|[<-|[]]]; reflexivity. }
  destruct (nothing_selected_fulfils resolve obfuscate mangled no_outputs
              script_and_style_world _ eq_refl eq_refl) as (Hs' & _).
  { intros k Hin. by apply elem_of_nil in Hin. }
  by split_and!.
Defined.

(** The reason of the rejection is the error of the read that failed. *)
Lemma promise_settles_once_witness :
  settled second_failed = Rejected (ENOENT "/w/input2.js") ∧
  first_failure (trace second_failed) = Some (ENOENT "/w/input2.js") ∧
  settled (run obfuscate [0; 1; 1; 0] second_failed) = settled second_failed.
Proof.
  assert (settled second_failed = Rejected (ENOENT "/w/input2.js")) as Hs
    by reflexivity.
  split; [exact Hs|].
  destruct (promise_settles_once resolve obfuscate mangled two_scripts second_missing
              second_failed (run_reachable obfuscate [0; 0; 0; 1] _))
    as (Hrej & _ & _ & Hstay).
  split; [by apply Hrej|].
  apply Hstay; [by rewrite Hs | apply run_reachable].
Defined.

(** Four calls for two scripts of which one is missing; six is the bound. *)
Lemma steps_bounded_witness :
  nsteps (hook_step obfuscate) 4
    (onEnd resolve mangled two_scripts second_missing) second_missing_done ∧
  length (trace second_missing_done) = 4 ∧
  4 ≤ 3 * selected_count (manifest_keys two_scripts).
Proof.
  assert (nsteps (hook_step obfuscate) 4
            (onEnd resolve mangled two_scripts second_missing) second_missing_done)
    as Hn
    by exact (run_nsteps obfuscate [1; 0; 0; 0]
                (onEnd resolve mangled two_scripts second_missing)).
  split; [exact Hn|].
  destruct (steps_bounded resolve obfuscate mangled two_scripts second_missing 4
              second_missing_done Hn) as (Hlen & Hle & _).
  by split.
Defined.

(** The failed read leaves the error channel alone. *)
Lemma only_diagnostic_witness :
  tasks second_failed !! 1 = Some (TFailed (ENOENT "/w/input2.js")) ∧
  emitted second_missing second_failed = [] ∧
  console second_failed = stderr second_missing.
Proof.
  split; [reflexivity|].
  destruct (only_diagnostic resolve obfuscate mangled two_scripts second_missing
              second_failed (run_reachable obfuscate [0; 0; 0; 1] _))
    as (Hem & Hcon & _).
  split; [exact Hem|]. rewrite Hcon, Hem. apply app_nil_r.
Defined.

(** The first script is transformed from what it held at the start. *)
Lemma task_transforms_original_witness :
  manifest_keys two_scripts !! 0 = Some "input1.js" ∧
  tasks both_done !! 0 = Some TDone ∧
  ∃ f out,
    files both_present !! resolve "input1.js" = Some f ∧
    obfuscate (content f) mangled = Ok out ∧
    fs both_done !! resolve "input1.js" = Some {| content := out; writable := true |}.
Proof.
  split; [reflexivity|]. split; [reflexivity|].
  destruct (task_transforms_original resolve obfuscate mangled two_scripts both_present
              both_done 0 "input1.js" distinct_scripts (run_reachable _ _ _)
              eq_refl eq_refl) as (_ & Hdone).
  destruct (Hdone eq_refl) as (f & out & Hf & Hobf & _ & Hfs).
  by exists f, out.
Defined.

(** A second call wraps the first script a second time. *)
Lemma second_call_transforms_again_witness :
  quiescent both_done = true ∧ quiescent both_done_again = true ∧
  fs both_done !! resolve "input1.js" =
    Some (file "var _0x1=[function greet() {}];") ∧
  fs both_done_again !! resolve "input1.js" =
    Some (file "var _0x1=[var _0x1=[function greet() {}];];").
Proof.
  split; [reflexivity|]. split; [reflexivity|].
  destruct (second_call_transforms_again resolve obfuscate mangled two_scripts
              both_present both_done both_done_again 0 "input1.js"
              (file "function greet() {}")
              "var _0x1=[function greet() {}];"
              "var _0x1=[var _0x1=[function greet() {}];];"
              distinct_scripts (run_reachable _ _ _) eq_refl (run_reachable _ _ _)
              eq_refl eq_refl eq_refl eq_refl eq_refl eq_refl eq_refl)
    as (H1 & _ & H2).
  by split.
Defined.

(** The first script does not parse: it stays as it was, the second one is
    transformed, the promise is rejected. *)
Lemma failed_file_untouched_witness :
  quiescent first_unparsable_done = true ∧
  obfuscate "function hello() {" mangled = Throw (Thrown "Unexpected token") ∧
  tasks first_unparsable_done !! 0 = Some (TFailed (Thrown "Unexpected token")) ∧
  fs first_unparsable_done !! resolve "input1.js" = Some (file "function hello() {") ∧
  fs first_unparsable_done !! resolve "input2.js" =
    Some (file "var _0x1=[function salute() {}];").
Proof.
  split; [reflexivity|]. split; [reflexivity|].
  destruct (failed_file_untouched resolve obfuscate mangled two_scripts
              first_unparsable first_unparsable_done 0 "input1.js"
              (file "function hello() {") (Thrown "Unexpected token")
              distinct_scripts (run_reachable _ _ _) eq_refl eq_refl eq_refl eq_refl
              (or_introl eq_refl))
    as (Ht & Hfs & _ & Hothers).
  split; [exact Ht|]. split; [exact Hfs|].
  by destruct (Hothers 1 "input2.js" (file "function salute() {}")
                 "var _0x1=[function salute() {}];"
                 eq_refl eq_refl eq_refl eq_refl eq_refl).
Defined.

End WitnessMore.
